(** * Superlists: list/item storage model and passwordless login views

    Shallow embedding of
      - [lists/models.py]   : [List], [Item], [List.create_new], [List.name],
                              [Item.Meta] ([ordering], [unique_together]);
      - [accounts/views.py] : [send_login_email], [login].

    Python code that runs against the ORM is written in a state monad whose
    computations may raise.  The database runs in Django's default
    autocommit mode: a write that has been performed stays performed when a
    later statement raises, unless the code asks for a transaction. *)

From Stdlib Require Import String Ascii List Arith Bool Lia.
From Stdlib Require Import Sorting.Sorted Sorting.Permutation.
Import ListNotations.
Local Open Scope string_scope.
Local Open Scope nat_scope.

(** ** Exceptions and the state-and-exception monad *)

(** The database constraint an [IntegrityError] reports. *)
Inductive constraint : Type :=
  | unique_together   (* Item.Meta.unique_together = ('list', 'text') *)
  | foreign_key       (* Item.list and List.owner reference existing rows *)
  | primary_key.      (* the key of a new row is taken *)

Inductive exn : Type :=
  | IntegrityError (c : constraint)  (* django.db.IntegrityError *)
  | OperationalError                 (* the storage layer is unavailable *)
  | AttributeError                   (* attribute read on None *)
  | MultiValueDictKeyError           (* request.POST[k] with k missing *)
  | MailerError (code : nat).        (* whatever the mail transport raises *)

Inductive outcome (A : Type) : Type :=
  | Return (a : A)
  | Raise (e : exn).
Arguments Return {A} a.
Arguments Raise {A} e.

(** A computation over a store [S]: the store it leaves is meaningful in
    both outcomes, a raise does not undo earlier effects. *)
Definition M (S A : Type) : Type := S -> outcome A * S.

Definition ret {S A} (a : A) : M S A := fun s => (Return a, s).

Definition raise {S A} (e : exn) : M S A := fun s => (Raise e, s).

Definition bind {S A B} (c : M S A) (k : A -> M S B) : M S B :=
  fun s =>
    match c s with
    | (Return a, s') => k a s'
    | (Raise e, s') => (Raise e, s')
    end.

Definition get {S} : M S S := fun s => (Return s, s).

Definition put {S} (s : S) : M S unit := fun _ => (Return tt, s).

Declare Scope py_scope.
Delimit Scope py_scope with py.
Notation "x <- c ;; k" := (bind c (fun x => k))
  (at level 100, c at next level, right associativity) : py_scope.
Notation "c ;; k" := (bind c (fun _ => k))
  (at level 100, right associativity) : py_scope.
Local Open Scope py_scope.

(** ** lists/models.py *)

Module Lists.

(** A user is referred to by its primary key. *)
Definition UserRef : Type := string.

(** [class List(models.Model)]: the implicit [id] and the nullable [owner]. *)
Record ListRow : Type := mkList {
  list_id : nat;
  owner : option UserRef
}.

(** [class Item(models.Model)]: the implicit [id], [text], and [list] (the
    id of the owning List row). *)
Record ItemRow : Type := mkItem {
  item_id : nat;
  text : string;
  item_list : nat
}.

(** The two tables.  Rows are kept in the order they were inserted; the
    [_seq] fields are the AUTOINCREMENT sequences behind the [id] columns
    (the last id handed out).  [accounts_user] holds the keys of the rows
    of [settings.AUTH_USER_MODEL], the table [List.owner] refers to. *)
Record DB : Type := mkDB {
  lists_list : list ListRow;
  lists_item : list ItemRow;
  list_seq : nat;
  item_seq : nat;
  accounts_user : list UserRef
}.

Definition empty_db : DB :=
  {| lists_list := []; lists_item := []; list_seq := 0; item_seq := 0;
     accounts_user := [] |}.

(** The database together with what the environment does to it: [faults]
    says, for each of the next storage statements, whether the storage is
    down when the statement is issued ([true] = it raises).  An exhausted
    schedule means the storage stays up. *)
Record World : Type := mkWorld {
  db : DB;
  faults : list bool
}.

Definition Py (A : Type) : Type := M World A.

(** Every ORM statement first has to reach the storage. *)
Definition storage_access : Py unit :=
  fun w =>
    let w' := {| db := db w; faults := tl (faults w) |} in
    if hd false (faults w) then (Raise OperationalError, w') else (Return tt, w').

Definition get_db : Py DB := fun w => (Return (db w), w).

Definition put_db (d : DB) : Py unit :=
  fun w => (Return tt, {| db := d; faults := faults w |}).

(** [owner = models.ForeignKey(settings.AUTH_USER_MODEL, blank=True,
    null=True, ...)]: no owner, or the key of a user row. *)
Definition owner_exists (d : DB) (owner : option UserRef) : bool :=
  match owner with
  | None => true
  | Some u => existsb (String.eqb u) (accounts_user d)
  end.

(** [List.objects.create(owner=owner)] *)
Definition List_objects_create (owner : option UserRef) : Py ListRow :=
  storage_access ;;
  d <- get_db ;;
  if negb (owner_exists d owner) then raise (IntegrityError foreign_key)
  else
  let row := {| list_id := S (list_seq d); owner := owner |} in
  put_db {| lists_list := lists_list d ++ [row];
            lists_item := lists_item d;
            list_seq := S (list_seq d);
            item_seq := item_seq d;
            accounts_user := accounts_user d |} ;;
  ret row.

Definition list_exists (d : DB) (lid : nat) : bool :=
  existsb (fun l => list_id l =? lid) (lists_list d).

(** The [unique_together = ('list', 'text')] check: is there already a row
    with this list and exactly this text? *)
Definition has_item (d : DB) (lid : nat) (t : string) : bool :=
  existsb (fun i => (item_list i =? lid) && (text i =? t)%string) (lists_item d).

(** [Item.objects.create(text=text, list=list_)] *)
Definition Item_objects_create (t : string) (list_ : ListRow) : Py ItemRow :=
  storage_access ;;
  d <- get_db ;;
  if negb (list_exists d (list_id list_)) then raise (IntegrityError foreign_key)
  else if has_item d (list_id list_) t then raise (IntegrityError unique_together)
  else
    let row := {| item_id := S (item_seq d); text := t; item_list := list_id list_ |} in
    put_db {| lists_list := lists_list d;
              lists_item := lists_item d ++ [row];
              list_seq := list_seq d;
              item_seq := S (item_seq d);
              accounts_user := accounts_user d |} ;;
    ret row.

(** Modelled from the spec: [User.objects.create(email=email)], the way a
    user row comes to be (accounts/models.py is not among the sources;
    section 3: the email is the user's unique identifier). *)
Definition User_objects_create (email : UserRef) : Py UserRef :=
  storage_access ;;
  d <- get_db ;;
  if existsb (String.eqb email) (accounts_user d)
  then raise (IntegrityError primary_key)
  else
    put_db {| lists_list := lists_list d;
              lists_item := lists_item d;
              list_seq := list_seq d;
              item_seq := item_seq d;
              accounts_user := accounts_user d ++ [email] |} ;;
    ret email.

(** [List.create_new(first_item_text, owner=None)] *)
Definition create_new (first_item_text : string) (owner : option UserRef) : Py ListRow :=
  list_ <- List_objects_create owner ;;
  Item_objects_create first_item_text list_ ;;
  ret list_.

(** [Item.Meta.ordering = ('id',)]: every query for items sorts by id. *)
Fixpoint insert_by_id (x : ItemRow) (l : list ItemRow) : list ItemRow :=
  match l with
  | [] => [x]
  | y :: l' => if item_id x <=? item_id y then x :: l else y :: insert_by_id x l'
  end.

Fixpoint order_by_id (l : list ItemRow) : list ItemRow :=
  match l with
  | [] => []
  | x :: l' => insert_by_id x (order_by_id l')
  end.

(** The rows [list_.item_set] selects, as a function of the database. *)
Definition select_items (d : DB) (lid : nat) : list ItemRow :=
  order_by_id (filter (fun i => item_list i =? lid) (lists_item d)).

(** [list_.item_set.all()], evaluated. *)
Definition item_set (list_ : ListRow) : Py (list ItemRow) :=
  storage_access ;;
  d <- get_db ;;
  ret (select_items d (list_id list_)).

(** [QuerySet.first()]: the first row, or [None]. *)
Definition first (q : list ItemRow) : option ItemRow := hd_error q.

(** [List.name]: [self.item_set.first().text] *)
Definition name (list_ : ListRow) : Py string :=
  q <- item_set list_ ;;
  match first q with
  | Some i => ret (text i)
  | None => raise AttributeError
  end.

(** *** The item validator (lists/forms.py and lists/views.py, which are
    not among the sources) *)

Inductive ValidationFailure : Type :=
  | EmptyItemError
  | DuplicateItemError.

Definition is_space (c : ascii) : bool :=
  let n := nat_of_ascii c in
  (n =? 32) || ((9 <=? n) && (n <=? 13)).

(** Modelled from the spec: the "empty/blank" test of section 4.4 step 1 --
    the text is empty, or holds nothing but white space. *)
Fixpoint is_blank (s : string) : bool :=
  match s with
  | EmptyString => true
  | String c s' => is_space c && is_blank s'
  end.

(** Modelled from the spec: "in one transaction" (section 4.4 step 2), as
    [with transaction.atomic(): c] -- a raise inside rolls the database
    back to what it was on entry. *)
Definition atomic {A} (c : Py A) : Py A :=
  fun w =>
    match c w with
    | (Return a, w') => (Return a, w')
    | (Raise e, w') => (Raise e, {| db := db w; faults := faults w' |})
    end.

(** Modelled from the spec: "catch that storage-level integrity violation
    and translate it" (section 4.4 step 3), as
    [try: c  except IntegrityError: return h] for the uniqueness
    constraint; any other raise goes on to the caller. *)
Definition catch_unique {A} (c : Py A) (h : Py A) : Py A :=
  fun w =>
    match c w with
    | (Raise (IntegrityError unique_together), w') => h w'
    | r => r
    end.

(** Modelled from the spec: [add_item(list_ref_or_none, text, owner_if_new)]
    of section 4.4, the item validator that lives in lists/forms.py and
    lists/views.py, neither of which is among the sources.  It follows the
    four numbered steps of the contract on top of the model operations
    above: the emptiness check before any storage statement; the new-list
    path as one transaction; the existing-list path turning the storage
    layer's uniqueness rejection into [DuplicateItemError]; every other
    storage failure raised to the caller. *)
Definition add_item (list_ref_or_none : option ListRow) (t : string)
    (owner_if_new : option UserRef) : Py (ItemRow + ValidationFailure) :=
  if is_blank t then ret (inr EmptyItemError)
  else
    match list_ref_or_none with
    | None =>
        atomic (list_ <- List_objects_create owner_if_new ;;
                i <- Item_objects_create t list_ ;;
                ret (inl i))
    | Some list_ =>
        catch_unique (i <- Item_objects_create t list_ ;; ret (inl i))
                     (ret (inr DuplicateItemError))
    end.

(** *** Histories *)

(** The calls a client of the module can make. *)
Inductive call : Type :=
  | CallListCreate (owner : option UserRef)
  | CallItemCreate (t : string) (list_ : ListRow)
  | CallCreateNew (first_item_text : string) (owner : option UserRef)
  | CallAddItem (list_ref_or_none : option ListRow) (t : string)
                (owner_if_new : option UserRef)
  | CallItemSet (list_ : ListRow)
  | CallName (list_ : ListRow)
  | CallUserCreate (email : UserRef).

Definition run_call (c : call) : Py unit :=
  match c with
  | CallListCreate o => List_objects_create o ;; ret tt
  | CallItemCreate t l => Item_objects_create t l ;; ret tt
  | CallCreateNew t o => create_new t o ;; ret tt
  | CallAddItem r t o => add_item r t o ;; ret tt
  | CallItemSet l => item_set l ;; ret tt
  | CallName l => name l ;; ret tt
  | CallUserCreate u => User_objects_create u ;; ret tt
  end.

(** One step of a history: a call, and the fault schedule the environment
    presents while it runs. *)
Definition step (d : DB) (e : call * list bool) : DB :=
  db (snd (run_call (fst e) {| db := d; faults := snd e |})).

(** The database a history of calls leaves, starting from the empty one. *)
Definition run_history (h : list (call * list bool)) : DB :=
  fold_left step h empty_db.

(** *** How the database changes, and what stays true of it *)

(** The writes the storage layer performs: a List row under the next id of
    its sequence; an Item row under the next id of its sequence, once the
    foreign key and the [unique_together] constraint have let it pass; a
    user row. *)
Inductive db_step : DB -> DB -> Prop :=
  | step_none : forall d, db_step d d
  | step_list : forall d o,
      db_step d {| lists_list := lists_list d ++ [mkList (S (list_seq d)) o];
                   lists_item := lists_item d;
                   list_seq := S (list_seq d);
                   item_seq := item_seq d;
                   accounts_user := accounts_user d |}
  | step_item : forall d t lid,
      list_exists d lid = true ->
      has_item d lid t = false ->
      db_step d {| lists_list := lists_list d;
                   lists_item := lists_item d ++ [mkItem (S (item_seq d)) t lid];
                   list_seq := list_seq d;
                   item_seq := S (item_seq d);
                   accounts_user := accounts_user d |}
  | step_user : forall d u,
      db_step d {| lists_list := lists_list d;
                   lists_item := lists_item d;
                   list_seq := list_seq d;
                   item_seq := item_seq d;
                   accounts_user := accounts_user d ++ [u] |}
  | step_trans : forall d1 d2 d3, db_step d1 d2 -> db_step d2 d3 -> db_step d1 d3.

(** The columns [unique_together] ranges over. *)
Definition unique_key (i : ItemRow) : nat * string := (item_list i, text i).

Record wf (d : DB) : Prop := mk_wf {
  wf_item_ids : StronglySorted lt (map item_id (lists_item d));
  wf_item_seq : Forall (fun i => item_id i <= item_seq d) (lists_item d);
  wf_unique : NoDup (map unique_key (lists_item d));
  wf_list_seq : Forall (fun l => list_id l <= list_seq d) (lists_list d);
  wf_fk : Forall (fun i => list_exists d (item_list i) = true) (lists_item d)
}.


End Lists.

(** ** accounts/views.py *)

Module Accounts.

(** *** What the views work on *)

(** Modelled from the spec: the [Token] model of accounts/models.py, which
    is not among the sources (section 3: [uid], [email], [created_at]). *)
Record Token : Type := mkToken {
  uid : string;
  token_email : string;
  created_at : nat
}.

(** Modelled from the spec: the [User] model of accounts/models.py
    (section 3: [email] is the only attribute and the natural identifier). *)
Record User : Type := mkUser {
  email : string
}.

(** The accounts tables, the clock and the random source of the host, and
    the fault schedule of the storage (as for the lists tables: [true] =
    the next statement finds the storage down). *)
Record Storage : Type := mkStorage {
  tokens : list Token;
  users : list User;
  entropy : nat;
  clock : nat;
  faults : list bool
}.

Record EmailMessage : Type := mkEmail {
  subject : string;
  body : string;
  from_email : string;
  recipient_list : list string
}.

Inductive level : Type := SUCCESS | ERROR.

(** What a request handler can change: the storage, the session bound to
    the client ([_auth_user_id], if any), the messages queued for the next
    page, and the mail handed to the transport. *)
Record World : Type := mkWorld {
  storage : Storage;
  session : option string;
  messages : list (level * string);
  outbox : list EmailMessage
}.

Definition Py (A : Type) : Type := M World A.

(** A [QueryDict] as the pairs of the submitted form or query string. *)
Definition QueryDict : Type := list (string * string).

Record HttpRequest : Type := mkRequest {
  POST : QueryDict;
  GET : QueryDict;
  build_absolute_uri : string -> string
}.

Record HttpResponse : Type := mkResponse {
  status_code : nat;
  location : string
}.

(** [QueryDict.get(key)]: the last value submitted under [key], or [None]. *)
Fixpoint QueryDict_get (key : string) (q : QueryDict) : option string :=
  match q with
  | [] => None
  | (k, v) :: q' =>
      match QueryDict_get key q' with
      | Some v' => Some v'
      | None => if (k =? key)%string then Some v else None
      end
  end.

(** [QueryDict[key]] *)
Definition QueryDict_getitem {S} (key : string) (q : QueryDict) : M S string :=
  match QueryDict_get key q with
  | Some v => ret v
  | None => raise MultiValueDictKeyError
  end.

(** [django.shortcuts.redirect(to)] *)
Definition redirect (to : string) : HttpResponse :=
  {| status_code := 302; location := to |}.

(** [str(x)] on a value that is a string already. *)
Definition str (x : string) : string := x.

Definition nl : string := String (ascii_of_nat 10) EmptyString.

(** The collaborators the views import and the sources do not define: the
    URL resolver (urls.py), the generator behind [Token.uid], and the mail
    transport ([None] = the call returns, [Some c] = it raises). *)
Class Framework : Type := {
  reverse : string -> string;
  uuid4 : nat -> string;
  mail_transport : EmailMessage -> option nat
}.

(** The configured authentication backend: [authenticate(request, uid=uid)].
    It is handed the request and the credential, and works on the
    storage. *)
Class AuthBackend : Type := {
  backend_authenticate : HttpRequest -> option string -> M Storage (option User)
}.

Definition storage_access : M Storage unit :=
  fun s =>
    let s' := {| tokens := tokens s; users := users s; entropy := entropy s;
                 clock := clock s; faults := tl (faults s) |} in
    if hd false (faults s) then (Raise OperationalError, s') else (Return tt, s').

(** Run a storage computation inside a request. *)
Definition lift {A} (c : M Storage A) : Py A :=
  fun w =>
    let (r, s') := c (storage w) in
    (r, {| storage := s'; session := session w;
           messages := messages w; outbox := outbox w |}).

Section Views.

Context {framework : Framework} {auth_backend : AuthBackend}.

(** Modelled from the spec: [Token.objects.create(email=email)], the
    [issue(email)] of section 4.1 -- a fresh [uid], the record
    [{uid, email, created_at = now}] persisted and returned; it fails on
    storage unavailability only. *)
Definition Token_objects_create (email : string) : M Storage Token :=
  storage_access ;;
  s <- get ;;
  let token := {| uid := uuid4 (entropy s); token_email := email;
                  created_at := clock s |} in
  put {| tokens := tokens s ++ [token]; users := users s;
         entropy := S (entropy s); clock := S (clock s);
         faults := faults s |} ;;
  ret token.

(** [EmailMessage.recipients()]: the addresses that are not empty. *)
Definition recipients (m : EmailMessage) : list string :=
  filter (fun a => negb (a =? "")%string) (recipient_list m).

(** [django.core.mail.send_mail(subject, message, from_email, recipient_list)]:
    the number of messages sent.  A message with no recipient is not handed
    to the transport at all ([EmailMessage.send] returns 0). *)
Definition send_mail (subject message from_email : string)
    (recipient_list : list string) : Py nat :=
  fun w =>
    let m := {| subject := subject; body := message; from_email := from_email;
                recipient_list := recipient_list |} in
    match recipients m with
    | [] => (Return 0, w)
    | _ :: _ =>
        match mail_transport m with
        | Some c => (Raise (MailerError c), w)
        | None => (Return 1, {| storage := storage w; session := session w;
                                messages := messages w; outbox := outbox w ++ [m] |})
        end
    end.

(** How the mailer call for message [m] ends: [None] = it returns, [Some c]
    = it raises.  The transport is asked only when there is a recipient. *)
Definition mailer_call (m : EmailMessage) : option nat :=
  match recipients m with
  | [] => None
  | _ :: _ => mail_transport m
  end.

(** [django.contrib.messages.success(request, message)] *)
Definition messages_success (message : string) : Py unit :=
  fun w => (Return tt, {| storage := storage w; session := session w;
                          messages := messages w ++ [(SUCCESS, message)];
                          outbox := outbox w |}).

(** [django.contrib.auth.authenticate(request=request, uid=uid)] *)
Definition auth_authenticate (request : HttpRequest) (uid : option string)
    : Py (option User) :=
  lift (backend_authenticate request uid).

(** [django.contrib.auth.login(request, user)] *)
Definition auth_login (user : User) : Py unit :=
  fun w => (Return tt, {| storage := storage w; session := Some (email user);
                          messages := messages w; outbox := outbox w |}).

Definition confirmation : string :=
  "Проверьте свою почту, мы отправили Вам ссылку, " ++
  "которую можно использовать для входа на сайт.".

(** [send_login_email(request)] *)
Definition send_login_email (request : HttpRequest) : Py HttpResponse :=
  email <- QueryDict_getitem "email" (POST request) ;;
  token <- lift (Token_objects_create email) ;;
  let url := build_absolute_uri request
               (reverse "login" ++ "?token=" ++ str (uid token)) in
  let message_body := "Use this link to log in:" ++ nl ++ nl ++ url in
  send_mail "Your login link for Superlists" message_body
            "noreply@superlists" [email] ;;
  messages_success confirmation ;;
  ret (redirect "/").

(** [login(request)] *)
Definition login (request : HttpRequest) : Py HttpResponse :=
  user <- auth_authenticate request (QueryDict_get "token" (GET request)) ;;
  match user with
  | Some u => auth_login u ;; ret (redirect "/")
  | None => ret (redirect "/")
  end.

(** The values [send_login_email] computes on its way, as functions of
    what it starts from: the token [Token.objects.create] returns in
    storage [s], the [url] built for a token, and the message handed to
    [send_mail]. *)
Definition issued_token (email : string) (s : Storage) : Token :=
  {| uid := uuid4 (entropy s); token_email := email; created_at := clock s |}.

Definition login_url (request : HttpRequest) (token : Token) : string :=
  build_absolute_uri request (reverse "login" ++ "?token=" ++ str (uid token)).

Definition login_message (request : HttpRequest) (token : Token) : EmailMessage :=
  {| subject := "Your login link for Superlists";
     body := "Use this link to log in:" ++ nl ++ nl ++ login_url request token;
     from_email := "noreply@superlists";
     recipient_list := [token_email token] |}.

End Views.

(** *** The passwordless backend (accounts/authentication.py) *)

(** Modelled from the spec: [find_by_uid(uid)] of section 4.1, an exact
    lookup in the token table. *)
Definition find_by_uid (u : string) : M Storage (option Token) :=
  storage_access ;;
  s <- get ;;
  ret (find (fun t => (uid t =? u)%string) (tokens s)).

(** Modelled from the spec: the lookup of the User whose email equals the
    token's (section 4.2 step 3). *)
Definition find_user (e : string) : M Storage (option User) :=
  storage_access ;;
  s <- get ;;
  ret (find (fun x => (email x =? e)%string) (users s)).

(** Modelled from the spec: the creation of a User with that email when
    there is none (section 4.2 step 3). *)
Definition User_objects_create (e : string) : M Storage User :=
  storage_access ;;
  s <- get ;;
  let user := {| email := e |} in
  put {| tokens := tokens s; users := users s ++ [user];
         entropy := entropy s; clock := clock s; faults := faults s |} ;;
  ret user.

(** Modelled from the spec: [authenticate(uid)] of section 4.2, the backend
    of accounts/authentication.py, which is not among the sources.  Steps 1
    to 3 of the contract: an absent or empty [uid] resolves to nobody; so
    does a [uid] no token carries; otherwise the user with the token's email
    is returned, created first when there is none. *)
Definition authenticate (uid : option string) : M Storage (option User) :=
  match uid with
  | None => ret None
  | Some u =>
      if (u =? "")%string then ret None
      else
        t <- find_by_uid u ;;
        match t with
        | None => ret None
        | Some token =>
            x <- find_user (token_email token) ;;
            match x with
            | Some user => ret (Some user)
            | None => user <- User_objects_create (token_email token) ;;
                      ret (Some user)
            end
        end
  end.

#[export] Instance PasswordlessAuthenticationBackend : AuthBackend :=
  {| backend_authenticate := fun _ uid => authenticate uid |}.

(** *** A host to run the views on *)

(** A resolver that mounts every named route at the site root, a uid
    generator, and a transport that refuses one mailbox. *)
Definition example_framework : Framework :=
  {| reverse := fun name => "/" ++ name;
     uuid4 := fun n => "5f0c1d2e-" ++ String (ascii_of_nat (97 + n mod 26)) "";
     mail_transport := fun m =>
       if existsb (String.eqb "bounce@example.com") (recipient_list m)
       then Some 550 else None |}.

Definition example_request (post get : QueryDict) : HttpRequest :=
  {| POST := post; GET := get;
     build_absolute_uri := fun location => "http://testserver" ++ location |}.

Definition empty_world : World :=
  {| storage := {| tokens := []; users := []; entropy := 0; clock := 0; faults := [] |};
     session := None; messages := []; outbox := [] |}.

End Accounts.

(** * Properties of the list and item model *)

Module ListsProofs.

Import Lists.
Local Open Scope list_scope.

(** ** Rows, keys and order *)

Lemma has_item_true (d : DB) (lid : nat) (t : string) :
  has_item d lid t = true <-> In (lid, t) (map unique_key (lists_item d)).
Proof.
  unfold has_item. rewrite existsb_exists, in_map_iff. split.
  - intros [i [Hin Hi]]. apply andb_true_iff in Hi as [Hl Ht].
    apply Nat.eqb_eq in Hl. apply String.eqb_eq in Ht.
    exists i. unfold unique_key. now subst.
  - intros [i [Hk Hin]]. exists i. split; [exact Hin|].
    unfold unique_key in Hk. inversion Hk; subst.
    now rewrite Nat.eqb_refl, String.eqb_refl.
Qed.

Lemma has_item_false (d : DB) (lid : nat) (t : string) :
  has_item d lid t = false <-> ~ In (lid, t) (map unique_key (lists_item d)).
Proof.
  rewrite <- has_item_true. destruct (has_item d lid t); split; intro H;
    try reflexivity; try discriminate; try (intro; discriminate).
  exfalso. apply H. reflexivity.
Qed.

Lemma NoDup_snoc {A} (l : list A) (x : A) :
  NoDup l -> ~ In x l -> NoDup (l ++ [x]).
Proof.
  induction l as [|y l IH]; simpl; intros Hnd Hx.
  - constructor; [intros []|constructor].
  - inversion Hnd; subst. constructor.
    + rewrite in_app_iff. simpl. intros [H|[H|[]]]; [tauto|subst; tauto].
    + apply IH; tauto.
Qed.

Lemma sorted_snoc (l : list nat) (n : nat) :
  StronglySorted lt l -> Forall (fun m => m <= n) l -> StronglySorted lt (l ++ [S n]).
Proof.
  induction 1 as [|m l Hs IH Hm]; simpl; intros Hle.
  - repeat constructor.
  - inversion Hle; subst. constructor; [now apply IH|].
    apply Forall_app. split; [exact Hm|]. constructor; [lia|constructor].
Qed.

Lemma sorted_filter (f : ItemRow -> bool) (l : list ItemRow) :
  StronglySorted lt (map item_id l) -> StronglySorted lt (map item_id (filter f l)).
Proof.
  induction l as [|x l IH]; simpl; intros Hs; [constructor|].
  inversion Hs; subst. destruct (f x); simpl; [|now apply IH].
  constructor; [now apply IH|].
  rewrite Forall_forall in *. intros m Hm. apply H2.
  rewrite in_map_iff in *. destruct Hm as [i [Hi Hin]].
  exists i. split; [exact Hi|]. apply filter_In in Hin. tauto.
Qed.

(** Sorting rows that already are in ascending id order changes nothing. *)
Lemma order_by_id_sorted (l : list ItemRow) :
  StronglySorted lt (map item_id l) -> order_by_id l = l.
Proof.
  induction l as [|x l IH]; simpl; intros Hs; [reflexivity|].
  inversion Hs; subst. rewrite IH by assumption.
  destruct l as [|y l]; simpl; [reflexivity|].
  inversion H2; subst.
  destruct (Nat.leb_spec (item_id x) (item_id y)); [reflexivity|lia].
Qed.

Lemma insert_by_id_In (x y : ItemRow) (l : list ItemRow) :
  In y (insert_by_id x l) <-> y = x \/ In y l.
Proof.
  induction l as [|z l IH]; simpl.
  - intuition congruence.
  - destruct (item_id x <=? item_id z); simpl; [|rewrite IH]; intuition congruence.
Qed.

Lemma order_by_id_In (y : ItemRow) (l : list ItemRow) :
  In y (order_by_id l) <-> In y l.
Proof.
  induction l as [|x l IH]; simpl; [tauto|].
  rewrite insert_by_id_In, IH. intuition congruence.
Qed.

Lemma insert_by_id_sorted (x : ItemRow) (l : list ItemRow) :
  StronglySorted le (map item_id l) ->
  StronglySorted le (map item_id (insert_by_id x l)).
Proof.
  induction l as [|y l IH]; simpl; intros Hs.
  - repeat constructor.
  - inversion Hs; subst.
    destruct (Nat.leb_spec (item_id x) (item_id y)); simpl.
    + constructor; [exact Hs|]. constructor; [exact H|].
      rewrite Forall_forall in *. intros m Hm. specialize (H2 m Hm). lia.
    + constructor; [now apply IH|].
      rewrite Forall_forall in *. intros m Hm.
      rewrite in_map_iff in Hm. destruct Hm as [i [Hi Hin]].
      apply insert_by_id_In in Hin as [->|Hin]; [lia|].
      apply H2. rewrite in_map_iff. now exists i.
Qed.

(** [ordering = ('id',)] on any table whatever: the rows come back in
    ascending id order. *)
Lemma order_by_id_ascending (l : list ItemRow) :
  StronglySorted le (map item_id (order_by_id l)).
Proof.
  induction l as [|x l IH]; simpl; [constructor|now apply insert_by_id_sorted].
Qed.

Lemma NoDup_text_of_list (lid : nat) (l : list ItemRow) :
  NoDup (map unique_key l) ->
  NoDup (map text (filter (fun i => item_list i =? lid) l)).
Proof.
  induction l as [|x l IH]; simpl; intros Hnd; [constructor|].
  inversion Hnd; subst.
  destruct (Nat.eqb_spec (item_list x) lid) as [Hx|Hx]; simpl; [|now apply IH].
  constructor; [|now apply IH].
  intros Hin. apply H1.
  rewrite in_map_iff in *. destruct Hin as [i [Ht Hi]].
  apply filter_In in Hi as [Hi Hl]. apply Nat.eqb_eq in Hl.
  exists i. split; [|exact Hi]. unfold unique_key. congruence.
Qed.

(** ** What each operation does to the world *)

Lemma List_objects_create_run (o : option UserRef) (w : World) :
  List_objects_create o w =
  if hd false (faults w)
  then (Raise OperationalError, {| db := db w; faults := tl (faults w) |})
  else if negb (owner_exists (db w) o)
  then (Raise (IntegrityError foreign_key), {| db := db w; faults := tl (faults w) |})
  else (Return (mkList (S (list_seq (db w))) o),
        {| db := {| lists_list := lists_list (db w) ++ [mkList (S (list_seq (db w))) o];
                    lists_item := lists_item (db w);
                    list_seq := S (list_seq (db w));
                    item_seq := item_seq (db w);
                    accounts_user := accounts_user (db w) |};
           faults := tl (faults w) |}).
Proof.
  unfold List_objects_create, bind, storage_access, get_db, put_db, ret, raise.
  destruct (hd false (faults w)); simpl; [reflexivity|].
  destruct (owner_exists (db w) o); reflexivity.
Qed.

Lemma Item_objects_create_run (t : string) (l : ListRow) (w : World) :
  Item_objects_create t l w =
  if hd false (faults w)
  then (Raise OperationalError, {| db := db w; faults := tl (faults w) |})
  else if negb (list_exists (db w) (list_id l))
  then (Raise (IntegrityError foreign_key), {| db := db w; faults := tl (faults w) |})
  else if has_item (db w) (list_id l) t
  then (Raise (IntegrityError unique_together), {| db := db w; faults := tl (faults w) |})
  else (Return (mkItem (S (item_seq (db w))) t (list_id l)),
        {| db := {| lists_list := lists_list (db w);
                    lists_item := lists_item (db w) ++ [mkItem (S (item_seq (db w))) t (list_id l)];
                    list_seq := list_seq (db w);
                    item_seq := S (item_seq (db w));
                    accounts_user := accounts_user (db w) |};
           faults := tl (faults w) |}).
Proof.
  unfold Item_objects_create, bind, storage_access, get_db, put_db, ret, raise.
  destruct (hd false (faults w)); simpl; [reflexivity|].
  destruct (list_exists (db w) (list_id l)); simpl; [|reflexivity].
  destruct (has_item (db w) (list_id l) t); reflexivity.
Qed.

Lemma List_objects_create_step (o : option UserRef) (w : World) :
  db_step (db w) (db (snd (List_objects_create o w))).
Proof.
  rewrite List_objects_create_run.
  destruct (hd false (faults w)); simpl; [constructor|].
  destruct (owner_exists (db w) o); simpl; constructor.
Qed.

Lemma User_objects_create_step (u : UserRef) (w : World) :
  db_step (db w) (db (snd (User_objects_create u w))).
Proof.
  unfold User_objects_create, bind, storage_access, get_db, put_db, ret, raise.
  destruct (hd false (faults w)); simpl; [constructor|].
  destruct (existsb (String.eqb u) (accounts_user (db w))); simpl; constructor.
Qed.

Lemma Item_objects_create_step (t : string) (l : ListRow) (w : World) :
  db_step (db w) (db (snd (Item_objects_create t l w))).
Proof.
  rewrite Item_objects_create_run.
  destruct (hd false (faults w)); simpl; [constructor|].
  destruct (list_exists (db w) (list_id l)) eqn:Hl; simpl; [|constructor].
  destruct (has_item (db w) (list_id l) t) eqn:Hi; simpl; [constructor|].
  now apply step_item.
Qed.

(** Sequencing: the database moves by the steps of the first computation,
    then by those of the second. *)
Lemma bind_step {A B} (c : Py A) (k : A -> Py B) (w : World) :
  db_step (db w) (db (snd (c w))) ->
  (forall a w', db_step (db w') (db (snd (k a w')))) ->
  db_step (db w) (db (snd (bind c k w))).
Proof.
  intros Hc Hk. unfold bind.
  destruct (c w) as [[a|e] w'] eqn:E; simpl in *; [|exact Hc].
  eapply step_trans; [exact Hc|apply Hk].
Qed.

Lemma ret_step {A} (a : A) (w : World) : db_step (db w) (db (snd (ret a w))).
Proof. constructor. Qed.

Lemma create_new_step (t : string) (o : option UserRef) (w : World) :
  db_step (db w) (db (snd (create_new t o w))).
Proof.
  unfold create_new.
  apply bind_step; [apply List_objects_create_step|]. intros l w1.
  apply bind_step; [apply Item_objects_create_step|]. intros i w2.
  apply ret_step.
Qed.

Lemma atomic_step {A} (c : Py A) (w : World) :
  db_step (db w) (db (snd (c w))) -> db_step (db w) (db (snd (atomic c w))).
Proof.
  intros Hc. unfold atomic.
  destruct (c w) as [[a|e] w']; simpl in *; [exact Hc|constructor].
Qed.

Lemma add_item_step (r : option ListRow) (t : string) (o : option UserRef) (w : World) :
  db_step (db w) (db (snd (add_item r t o w))).
Proof.
  unfold add_item. destruct (is_blank t); [apply ret_step|].
  destruct r as [l|].
  - unfold catch_unique.
    pose proof (bind_step (Item_objects_create t l)
                  (fun i => ret (inl i : ItemRow + ValidationFailure)) w
                  (Item_objects_create_step t l w)
                  (fun a w' => ret_step _ w')) as H.
    destruct (bind (Item_objects_create t l) _ w) as [[a|e] w'] eqn:E; simpl in *;
      [exact H|].
    destruct e as [[| |]| | | |]; simpl; exact H.
  - apply atomic_step.
    apply bind_step; [apply List_objects_create_step|]. intros l w1.
    apply bind_step; [apply Item_objects_create_step|]. intros i w2.
    apply ret_step.
Qed.

Lemma item_set_run (l : ListRow) (w : World) :
  item_set l w =
  if hd false (faults w)
  then (Raise OperationalError, {| db := db w; faults := tl (faults w) |})
  else (Return (select_items (db w) (list_id l)),
        {| db := db w; faults := tl (faults w) |}).
Proof.
  unfold item_set, bind, storage_access, get_db, ret.
  destruct (hd false (faults w)); reflexivity.
Qed.

Lemma name_run (l : ListRow) (w : World) :
  name l w =
  if hd false (faults w)
  then (Raise OperationalError, {| db := db w; faults := tl (faults w) |})
  else match first (select_items (db w) (list_id l)) with
       | Some i => (Return (text i), {| db := db w; faults := tl (faults w) |})
       | None => (Raise AttributeError, {| db := db w; faults := tl (faults w) |})
       end.
Proof.
  unfold name, bind. rewrite item_set_run.
  destruct (hd false (faults w)); [reflexivity|].
  destruct (first (select_items (db w) (list_id l))); reflexivity.
Qed.

Lemma run_call_step (c : call) (w : World) :
  db_step (db w) (db (snd (run_call c w))).
Proof.
  destruct c; simpl; apply bind_step; try (intros; apply ret_step).
  - apply List_objects_create_step.
  - apply Item_objects_create_step.
  - apply create_new_step.
  - apply add_item_step.
  - rewrite item_set_run. destruct (hd false (faults w)); constructor.
  - rewrite name_run. destruct (hd false (faults w)); [constructor|].
    destruct (first _); constructor.
  - apply User_objects_create_step.
Qed.

(** ** The invariant of the tables *)

Lemma wf_empty : wf empty_db.
Proof. constructor; simpl; constructor. Qed.

Lemma list_exists_app (d : DB) (row : ListRow) (lid : nat) :
  existsb (fun l => list_id l =? lid) (lists_list d) = true ->
  existsb (fun l => list_id l =? lid) (lists_list d ++ [row]) = true.
Proof. intros H. rewrite existsb_app, H. reflexivity. Qed.

Lemma wf_db_step (d d' : DB) : db_step d d' -> wf d -> wf d'.
Proof.
  induction 1 as [d|d o|d t lid Hl Hi|d u|d1 d2 d3 _ IH1 _ IH2]; intros Hwf.
  - exact Hwf.
  - destruct Hwf as [Hids Hseq Huniq Hls Hfk]. constructor; simpl; try assumption.
    + apply Forall_app. split.
      * eapply Forall_impl; [|exact Hls]. simpl. intros; lia.
      * constructor; [simpl; lia|constructor].
    + eapply Forall_impl; [|exact Hfk]. intros i. unfold list_exists. simpl.
      apply list_exists_app.
  - destruct Hwf as [Hids Hseq Huniq Hls Hfk]. constructor; simpl; try assumption.
    + rewrite map_app. simpl. apply sorted_snoc; [exact Hids|].
      rewrite Forall_map. exact Hseq.
    + apply Forall_app. split.
      * eapply Forall_impl; [|exact Hseq]. simpl. intros; lia.
      * constructor; [simpl; lia|constructor].
    + rewrite map_app. simpl. apply NoDup_snoc; [exact Huniq|].
      now apply has_item_false.
    + apply Forall_app. split; [exact Hfk|]. constructor; [exact Hl|constructor].
  - destruct Hwf as [Hids Hseq Huniq Hls Hfk]. constructor; simpl; assumption.
  - auto.
Qed.

Lemma step_db_step (d : DB) (e : call * list bool) : db_step d (step d e).
Proof.
  unfold step.
  exact (run_call_step (fst e) {| db := d; faults := snd e |}).
Qed.

Lemma wf_fold (h : list (call * list bool)) (d : DB) :
  wf d -> wf (fold_left step h d).
Proof.
  revert d. induction h as [|e h IH]; simpl; intros d Hwf; [exact Hwf|].
  apply IH. eapply wf_db_step; [apply step_db_step|exact Hwf].
Qed.

(** Whatever calls were made, under whatever faults, the tables are well
    formed. *)
Lemma wf_run_history (h : list (call * list bool)) : wf (run_history h).
Proof. apply wf_fold, wf_empty. Qed.

(** On well-formed tables the query returns the list's rows in the order
    they were inserted. *)
Lemma select_items_wf (d : DB) (lid : nat) :
  wf d -> select_items d lid = filter (fun i => item_list i =? lid) (lists_item d).
Proof.
  intros Hwf. unfold select_items.
  apply order_by_id_sorted, sorted_filter, (wf_item_ids d Hwf).
Qed.


(** ** Looking rows up *)

Lemma has_item_select (d : DB) (lid : nat) (t : string) :
  has_item d lid t = true <-> In t (map text (select_items d lid)).
Proof.
  unfold has_item, select_items. rewrite existsb_exists, in_map_iff. split.
  - intros [i [Hin Hi]]. apply andb_true_iff in Hi as [Hl Ht].
    apply String.eqb_eq in Ht. exists i. split; [exact Ht|].
    apply order_by_id_In, filter_In. tauto.
  - intros [i [Ht Hin]]. apply order_by_id_In, filter_In in Hin as [Hin Hl].
    exists i. split; [exact Hin|]. rewrite Hl. simpl. now apply String.eqb_eq.
Qed.

Lemma list_exists_In (d : DB) (l : ListRow) :
  In l (lists_list d) -> list_exists d (list_id l) = true.
Proof.
  intros H. unfold list_exists. apply existsb_exists.
  exists l. split; [exact H|apply Nat.eqb_refl].
Qed.

Lemma list_exists_bound (d : DB) (lid : nat) :
  wf d -> list_exists d lid = true -> lid <= list_seq d.
Proof.
  intros Hwf H. unfold list_exists in H. apply existsb_exists in H as [l [Hin Hl]].
  apply Nat.eqb_eq in Hl. subst lid.
  pose proof (wf_list_seq d Hwf) as Hb. rewrite Forall_forall in Hb. now apply Hb.
Qed.

(** No row refers to a list that has not been created yet. *)
Lemma no_items_of_future_list (d : DB) (lid : nat) :
  wf d -> list_seq d < lid -> filter (fun i => item_list i =? lid) (lists_item d) = [].
Proof.
  intros Hwf Hlt.
  pose proof (wf_fk d Hwf) as Hfk. rewrite Forall_forall in Hfk.
  induction (lists_item d) as [|x l IH]; simpl; [reflexivity|].
  destruct (Nat.eqb_spec (item_list x) lid) as [Hx|Hx].
  - pose proof (list_exists_bound d _ Hwf (Hfk x (or_introl eq_refl))). lia.
  - apply IH. intros y Hy. apply Hfk. now right.
Qed.

(** What a successful [Item.objects.create] tells about the world before
    and after. *)
Lemma Item_objects_create_ok (t : string) (l : ListRow) (w w' : World) (i : ItemRow) :
  Item_objects_create t l w = (Return i, w') ->
  i = mkItem (S (item_seq (db w))) t (list_id l) /\
  lists_list (db w') = lists_list (db w) /\
  lists_item (db w') = lists_item (db w) ++ [i] /\
  list_seq (db w') = list_seq (db w) /\
  faults w' = tl (faults w) /\
  hd false (faults w) = false /\
  list_exists (db w) (list_id l) = true /\
  has_item (db w) (list_id l) t = false.
Proof.
  rewrite Item_objects_create_run.
  destruct (hd false (faults w)); [discriminate|].
  destruct (list_exists (db w) (list_id l)); simpl; [|discriminate].
  destruct (has_item (db w) (list_id l) t); [discriminate|].
  intros H. inversion H; subst; simpl. repeat split; reflexivity.
Qed.

Lemma Item_objects_create_seq (t : string) (l : ListRow) (w w' : World) (i : ItemRow) :
  Item_objects_create t l w = (Return i, w') ->
  item_seq (db w') = S (item_seq (db w)).
Proof.
  rewrite Item_objects_create_run.
  destruct (hd false (faults w)); [discriminate|].
  destruct (list_exists (db w) (list_id l)); simpl; [|discriminate].
  destruct (has_item (db w) (list_id l) t); [discriminate|].
  intros H. inversion H; subst; reflexivity.
Qed.

Lemma List_objects_create_ok (o : option UserRef) (w w' : World) (l : ListRow) :
  List_objects_create o w = (Return l, w') ->
  l = mkList (S (list_seq (db w))) o /\
  lists_list (db w') = lists_list (db w) ++ [l] /\
  lists_item (db w') = lists_item (db w) /\
  faults w' = tl (faults w) /\
  hd false (faults w) = false.
Proof.
  rewrite List_objects_create_run.
  destruct (hd false (faults w)); [discriminate|].
  destruct (owner_exists (db w) o); simpl; [|discriminate].
  intros H. inversion H; subst; simpl. repeat split; reflexivity.
Qed.

Lemma has_item_snoc (d d' : DB) (i : ItemRow) :
  lists_item d' = lists_item d ++ [i] -> has_item d' (item_list i) (text i) = true.
Proof.
  intros H. unfold has_item. rewrite H, existsb_app. simpl.
  rewrite Nat.eqb_refl, String.eqb_refl. apply orb_true_r.
Qed.

Lemma has_item_mono (d d' : DB) (i : ItemRow) (lid : nat) (t : string) :
  lists_item d' = lists_item d ++ [i] ->
  has_item d lid t = true -> has_item d' lid t = true.
Proof.
  intros H Hd. unfold has_item in *. rewrite H, existsb_app, Hd. reflexivity.
Qed.

(** What a successful [add_item] tells: the text is not blank, and the row
    it returns is in the table of a list that exists. *)
Lemma add_item_ok (r : option ListRow) (t : string) (o : option UserRef)
    (w w' : World) (i : ItemRow) :
  add_item r t o w = (Return (inl i), w') ->
  is_blank t = false /\ text i = t /\
  list_exists (db w') (item_list i) = true /\
  has_item (db w') (item_list i) t = true.
Proof.
  unfold add_item. destruct (is_blank t); [discriminate|].
  destruct r as [l|].
  - unfold catch_unique, bind.
    destruct (Item_objects_create t l w) as [[a|e] w1] eqn:E.
    + unfold ret. intros H. inversion H; subst.
      apply Item_objects_create_ok in E
        as (Hi & Hll & Hli & _ & _ & _ & Hex & _).
      assert (Ht : text i = t) by (subst i; reflexivity).
      assert (Hl : item_list i = list_id l) by (subst i; reflexivity).
      repeat split; [exact Ht| |].
      * unfold list_exists in *. rewrite Hll, Hl. exact Hex.
      * rewrite <- Ht. now apply has_item_snoc with (d := db w).
    + destruct e as [[| |]| | | |]; unfold ret; discriminate.
  - unfold atomic, bind.
    destruct (List_objects_create o w) as [[l|e] w1] eqn:E1; [|discriminate].
    destruct (Item_objects_create t l w1) as [[a|e] w2] eqn:E2; [|discriminate].
    unfold ret. intros H. inversion H; subst.
    apply Item_objects_create_ok in E2
      as (Hi & Hll & Hli & _ & _ & _ & Hex & _).
    assert (Ht : text i = t) by (subst i; reflexivity).
    assert (Hl : item_list i = list_id l) by (subst i; reflexivity).
    repeat split; [exact Ht| |].
    + unfold list_exists in *. rewrite Hll, Hl. exact Hex.
    + rewrite <- Ht. now apply has_item_snoc with (d := db w1).
Qed.

(** The existing-list path of [add_item], outcome by outcome. *)
Lemma add_item_existing_run (l : ListRow) (t : string) (o : option UserRef) (w : World) :
  is_blank t = false ->
  add_item (Some l) t o w =
  if hd false (faults w)
  then (Raise OperationalError, {| db := db w; faults := tl (faults w) |})
  else if negb (list_exists (db w) (list_id l))
  then (Raise (IntegrityError foreign_key), {| db := db w; faults := tl (faults w) |})
  else if has_item (db w) (list_id l) t
  then (Return (inr DuplicateItemError), {| db := db w; faults := tl (faults w) |})
  else (Return (inl (mkItem (S (item_seq (db w))) t (list_id l))),
        {| db := {| lists_list := lists_list (db w);
                    lists_item := lists_item (db w) ++ [mkItem (S (item_seq (db w))) t (list_id l)];
                    list_seq := list_seq (db w);
                    item_seq := S (item_seq (db w));
                    accounts_user := accounts_user (db w) |};
           faults := tl (faults w) |}).
Proof.
  intros Hb. unfold add_item. rewrite Hb. unfold catch_unique, bind.
  rewrite Item_objects_create_run.
  destruct (hd false (faults w)); [reflexivity|].
  destruct (list_exists (db w) (list_id l)); simpl; [|reflexivity].
  destruct (has_item (db w) (list_id l) t); reflexivity.
Qed.


(** ** Uniqueness of text within a list *)

Lemma NoDup_map_eq {A B} (f : A -> B) (l : list A) (x y : A) :
  NoDup (map f l) -> In x l -> In y l -> f x = f y -> x = y.
Proof.
  induction l as [|z l IH]; simpl; intros Hnd Hx Hy Hf; [contradiction|].
  inversion Hnd; subst.
  destruct Hx as [->|Hx], Hy as [->|Hy]; auto.
  - exfalso. apply H1. rewrite Hf. now apply in_map.
  - exfalso. apply H1. rewrite <- Hf. now apply in_map.
Qed.

Lemma step_item_create_present (d : DB) (t : string) (l : ListRow) :
  list_exists d (list_id l) = true ->
  let d' := step d (CallItemCreate t l, []) in
  has_item d' (list_id l) t = true /\
  lists_list d' = lists_list d /\
  (forall lid t', has_item d lid t' = true -> has_item d' lid t' = true).
Proof.
  intros Hex. unfold step. simpl. unfold bind.
  rewrite Item_objects_create_run. simpl. rewrite Hex. simpl.
  destruct (has_item d (list_id l) t) eqn:Hi; simpl.
  - rewrite Hi. auto.
  - repeat split.
    + unfold has_item. simpl. rewrite existsb_app. simpl.
      rewrite Nat.eqb_refl, String.eqb_refl. apply orb_true_r.
    + intros lid t' H. unfold has_item in *. simpl. rewrite existsb_app, H. reflexivity.
Qed.

(** C1.  After any history of calls, under any faults, the items of a list
    carry pairwise different texts (compared exactly); and for every text
    and every two different lists of the database, a continuation of the
    history stores an item with that text in both lists at once. *)
Theorem item_text_unique_per_list :
  (forall h lid, NoDup (map text (select_items (run_history h) lid))) /\
  (forall h lid i j,
      In i (select_items (run_history h) lid) ->
      In j (select_items (run_history h) lid) ->
      i <> j -> text i <> text j) /\
  (forall h l1 l2 t,
      In l1 (lists_list (run_history h)) ->
      In l2 (lists_list (run_history h)) ->
      list_id l1 <> list_id l2 ->
      exists h',
        In t (map text (select_items (run_history (h ++ h')) (list_id l1))) /\
        In t (map text (select_items (run_history (h ++ h')) (list_id l2)))).
Proof.
  split; [|split].
  - intros h lid. rewrite select_items_wf by apply wf_run_history.
    apply NoDup_text_of_list, (wf_unique _ (wf_run_history h)).
  - intros h lid i j Hi Hj Hne Ht. apply Hne.
    rewrite select_items_wf in Hi, Hj by apply wf_run_history.
    apply filter_In in Hi as [Hi Hli], Hj as [Hj Hlj].
    apply Nat.eqb_eq in Hli, Hlj.
    apply (NoDup_map_eq unique_key (lists_item (run_history h)));
      [apply (wf_unique _ (wf_run_history h))|assumption|assumption|].
    unfold unique_key. congruence.
  - intros h l1 l2 t H1 H2 _.
    exists [(CallItemCreate t l1, []); (CallItemCreate t l2, [])].
    unfold run_history. rewrite fold_left_app. simpl.
    fold (run_history h). set (d := run_history h) in *.
    destruct (step_item_create_present d t l1 (list_exists_In d l1 H1))
      as (Hp1 & Hl1 & _).
    set (d1 := step d (CallItemCreate t l1, [])) in *.
    assert (Hex2 : list_exists d1 (list_id l2) = true).
    { apply list_exists_In. rewrite Hl1. exact H2. }
    destruct (step_item_create_present d1 t l2 Hex2) as (Hp2 & _ & Hmono).
    split; apply has_item_select; [now apply Hmono|exact Hp2].
Qed.

Lemma item_text_unique_per_list_witness :
  exists h',
    In "buy milk"%string
       (map text (select_items
          (run_history ([(CallListCreate None, []); (CallListCreate None, [])] ++ h')) 1)) /\
    In "buy milk"%string
       (map text (select_items
          (run_history ([(CallListCreate None, []); (CallListCreate None, [])] ++ h')) 2)).
Proof.
  apply (proj2 (proj2 item_text_unique_per_list)
           [(CallListCreate None, []); (CallListCreate None, [])]
           (mkList 1 None) (mkList 2 None) "buy milk"%string).
  - simpl. left. reflexivity.
  - simpl. right. left. reflexivity.
  - simpl. lia.
Defined.

(** The comparison is exact: texts that differ in case only are different
    texts and live side by side in one list. *)
Example unique_is_case_sensitive :
  map text (select_items
    (run_history [(CallCreateNew "Milk" None, []);
                  (CallItemCreate "milk" (mkList 1 None), []);
                  (CallItemCreate "Milk" (mkList 1 None), [])]) 1)
  = ["Milk"; "milk"]%string.
Proof. reflexivity. Qed.

(** ** A second add of the same text *)

(** C2.  Once [add_item] has stored text [t] in a list, adding [t] to that
    list again stores nothing: the database is exactly what the first add
    left, the call never succeeds, and whenever the storage answers the
    result is [DuplicateItemError] (a storage outage at that moment is the
    only other outcome, raised as such).  A successful first add implies
    that [t] is not blank. *)
Theorem second_add_is_duplicate (r : option ListRow) (t : string)
    (o o2 : option UserRef) (w w1 : World) (i : ItemRow) (l2 : ListRow)
    (fs : list bool) :
  add_item r t o w = (Return (inl i), w1) ->
  list_id l2 = item_list i ->
  let res := add_item (Some l2) t o2 {| db := db w1; faults := fs |} in
  t <> ""%string /\
  db (snd res) = db w1 /\
  select_items (db (snd res)) (list_id l2) = select_items (db w1) (list_id l2) /\
  (hd false fs = false -> fst res = Return (inr DuplicateItemError)) /\
  (hd false fs = true -> fst res = Raise OperationalError).
Proof.
  intros Hadd Hl res.
  apply add_item_ok in Hadd as (Hb & _ & Hex & Hhas).
  assert (Hdb : db (snd res) = db w1 /\
                (hd false fs = false -> fst res = Return (inr DuplicateItemError)) /\
                (hd false fs = true -> fst res = Raise OperationalError)).
  { subst res. rewrite add_item_existing_run by exact Hb. simpl.
    rewrite Hl, Hex, Hhas. simpl.
    destruct (hd false fs); simpl; repeat split; congruence. }
  destruct Hdb as (Hdb & Hup & Hdown).
  repeat split; try assumption.
  - intros ->. discriminate Hb.
  - now rewrite Hdb.
Qed.

Lemma second_add_is_duplicate_witness :
  let w := {| db := run_history [(CallListCreate None, [])]; faults := [] |} in
  let w1 := snd (add_item (Some (mkList 1 None)) "buy milk" None w) in
  let res := add_item (Some (mkList 1 None)) "buy milk" None
               {| db := db w1; faults := [] |} in
  "buy milk"%string <> ""%string /\
  db (snd res) = db w1 /\
  select_items (db (snd res)) 1 = select_items (db w1) 1 /\
  (hd false [] = false -> fst res = Return (inr DuplicateItemError)) /\
  (hd false [] = true -> fst res = Raise OperationalError).
Proof.
  apply (second_add_is_duplicate (Some (mkList 1 None)) "buy milk" None None
           {| db := run_history [(CallListCreate None, [])]; faults := [] |}
           _ (mkItem 1 "buy milk" 1) (mkList 1 None) []).
  - reflexivity.
  - reflexivity.
Defined.

(** ** The empty text *)

(** C4.  On the new-list path and on the existing-list path alike, whatever
    the database holds, [add_item] with the empty text answers
    [EmptyItemError] and leaves the world untouched: no storage statement
    is issued, no List row and no Item row is written. *)
Theorem add_item_empty_text (r : option ListRow) (o : option UserRef) (w : World) :
  add_item r "" o w = (Return (inr EmptyItemError), w) /\
  faults (snd (add_item r "" o w)) = faults w /\
  lists_list (db (snd (add_item r "" o w))) = lists_list (db w) /\
  lists_item (db (snd (add_item r "" o w))) = lists_item (db w).
Proof. repeat split. Qed.

(** The check belongs to the validator: the model layer itself stores an
    empty text when asked to ([text = models.TextField(default='')]). *)
Example model_layer_accepts_empty_text :
  fst (Item_objects_create "" (mkList 1 None)
         {| db := run_history [(CallListCreate None, [])]; faults := [] |})
  = Return (mkItem 1 "" 1).
Proof. reflexivity. Qed.


(** ** [List.create_new] *)

(** [create_new] is two statements in autocommit mode.  When the storage
    goes down between them, the List row of the first stays behind with no
    Item at all. *)
Lemma create_new_not_atomic :
  let w' := snd (create_new "buy milk" None
                   {| db := empty_db; faults := [false; true] |}) in
  fst (create_new "buy milk" None {| db := empty_db; faults := [false; true] |})
    = Raise OperationalError /\
  lists_list (db w') = [mkList 1 None] /\
  select_items (db w') 1 = [].
Proof. repeat split. Qed.

(** C3 (as the code has it).  Whenever [create_new] returns -- neither of
    its two storage statements failed -- the List it returns is in the
    database with the owner asked for and has exactly one Item, carrying
    [first_item_text]. *)
Theorem create_new_list_has_first_item (h : list (call * list bool))
    (fs : list bool) (t : string) (o : option UserRef) (l : ListRow) (w' : World) :
  create_new t o {| db := run_history h; faults := fs |} = (Return l, w') ->
  In l (lists_list (db w')) /\
  owner l = o /\
  map text (select_items (db w') (list_id l)) = [t] /\
  fst (name l {| db := db w'; faults := [] |}) = Return t.
Proof.
  unfold create_new, bind. intros H.
  destruct (List_objects_create o _) as [[l0|e] w1] eqn:E1; [|discriminate].
  destruct (Item_objects_create t l0 w1) as [[i|e] w2] eqn:E2; [|discriminate].
  unfold ret in H. inversion H; subst l0 w2. clear H.
  assert (Hwf1 : wf (db w1)).
  { eapply wf_db_step; [|apply (wf_run_history h)].
    pose proof (List_objects_create_step o {| db := run_history h; faults := fs |}) as S1.
    rewrite E1 in S1. exact S1. }
  assert (Hwf2 : wf (db w')).
  { eapply wf_db_step; [|exact Hwf1].
    pose proof (Item_objects_create_step t l w1) as S2.
    rewrite E2 in S2. exact S2. }
  apply List_objects_create_ok in E1 as (Hl & Hll1 & Hli1 & _ & _). simpl in *.
  apply Item_objects_create_ok in E2 as (Hi & Hll2 & Hli2 & _ & _ & _ & _ & _).
  assert (Hsel : select_items (db w') (list_id l) = [i]).
  { rewrite select_items_wf by exact Hwf2.
    rewrite Hli2, filter_app, Hli1.
    rewrite (no_items_of_future_list (run_history h)) by
      (try apply wf_run_history; subst l; simpl; lia).
    simpl. subst i. simpl. now rewrite Nat.eqb_refl. }
  repeat split.
  - rewrite Hll2, Hll1. apply in_or_app. right. now left.
  - subst l. reflexivity.
  - rewrite Hsel. subst i. reflexivity.
  - rewrite name_run. simpl. rewrite Hsel. subst i. reflexivity.
Qed.

Lemma create_new_list_has_first_item_witness :
  let w' := snd (create_new "buy milk" (Some "a@b.com"%string)
                   {| db := run_history [(CallUserCreate "a@b.com", []);
                                         (CallCreateNew "other" None, [])];
                      faults := [] |}) in
  In (mkList 2 (Some "a@b.com"%string)) (lists_list (db w')) /\
  owner (mkList 2 (Some "a@b.com"%string)) = Some "a@b.com"%string /\
  map text (select_items (db w') 2) = ["buy milk"%string] /\
  fst (name (mkList 2 (Some "a@b.com"%string)) {| db := db w'; faults := [] |})
    = Return "buy milk"%string.
Proof.
  apply (create_new_list_has_first_item
           [(CallUserCreate "a@b.com", []); (CallCreateNew "other" None, [])] []
           "buy milk" (Some "a@b.com"%string)).
  reflexivity.
Defined.

(** ** Retrieval order *)

(** C5.  The query for a list's items returns them in ascending id order
    on any table whatever.  After any history the order is strictly
    ascending, and it is the order in which the rows were inserted; in
    particular two texts added one after the other to one list are both
    retrieved, the first before the second, after everything the list
    already held. *)
Theorem items_in_creation_order (h : list (call * list bool)) (lid : nat) :
  let d := run_history h in
  (forall d', StronglySorted le (map item_id (select_items d' lid))) /\
  StronglySorted lt (map item_id (select_items d lid)) /\
  select_items d lid = filter (fun i => item_list i =? lid) (lists_item d) /\
  (forall t1 t2 l fs i1 w1 i2 w2,
      list_id l = lid ->
      Item_objects_create t1 l {| db := d; faults := fs |} = (Return i1, w1) ->
      Item_objects_create t2 l w1 = (Return i2, w2) ->
      select_items (db w2) lid = select_items d lid ++ [i1; i2] /\
      text i1 = t1 /\ text i2 = t2 /\ item_id i1 < item_id i2).
Proof.
  intros d. pose proof (wf_run_history h) as Hwf. fold d in Hwf.
  split; [|split; [|split]].
  - intros d'. apply order_by_id_ascending.
  - rewrite select_items_wf by exact Hwf.
    apply sorted_filter, (wf_item_ids d Hwf).
  - now apply select_items_wf.
  - intros t1 t2 l fs i1 w1 i2 w2 Hl E1 E2.
    assert (Hwf1 : wf (db w1)).
    { eapply wf_db_step; [|exact Hwf].
      pose proof (Item_objects_create_step t1 l {| db := d; faults := fs |}) as S1.
      rewrite E1 in S1. exact S1. }
    assert (Hwf2 : wf (db w2)).
    { eapply wf_db_step; [|exact Hwf1].
      pose proof (Item_objects_create_step t2 l w1) as S2.
      rewrite E2 in S2. exact S2. }
    pose proof (Item_objects_create_seq _ _ _ _ _ E1) as Hseq. simpl in Hseq.
    apply Item_objects_create_ok in E1 as (Hi1 & _ & Hli1 & _). simpl in *.
    apply Item_objects_create_ok in E2 as (Hi2 & _ & Hli2 & _).
    rewrite (select_items_wf _ _ Hwf2), (select_items_wf _ _ Hwf).
    rewrite Hli2, Hli1, !filter_app. simpl.
    subst i1 i2. simpl. rewrite Hl, Nat.eqb_refl. simpl.
    rewrite <- app_assoc. simpl.
    repeat split; try reflexivity. lia.
Qed.

Lemma items_in_creation_order_witness :
  let d := run_history [(CallCreateNew "first" None, [])] in
  let l := mkList 1 None in
  let r1 := Item_objects_create "text1" l {| db := d; faults := [] |} in
  let r2 := Item_objects_create "text2" l (snd r1) in
  select_items (db (snd r2)) 1 = select_items d 1 ++ [mkItem 2 "text1" 1; mkItem 3 "text2" 1] /\
  text (mkItem 2 "text1" 1) = "text1"%string /\
  text (mkItem 3 "text2" 1) = "text2"%string /\
  item_id (mkItem 2 "text1" 1) < item_id (mkItem 3 "text2" 1).
Proof.
  apply (proj2 (proj2 (proj2
           (items_in_creation_order [(CallCreateNew "first" None, [])] 1)))
           "text1"%string "text2"%string (mkList 1 None) []
           (mkItem 2 "text1" 1)
           (snd (Item_objects_create "text1" (mkList 1 None)
                   {| db := run_history [(CallCreateNew "first" None, [])];
                      faults := [] |}))
           (mkItem 3 "text2" 1)).
  - reflexivity.
  - reflexivity.
  - reflexivity.
Defined.

(** ** The derived name *)

(** C9.  On a list that has no item, reading [name] raises: [first()]
    yields no row, and the read of its text fails with [AttributeError]
    (when the storage is down the query raises already).  [name] returns a
    text exactly when the storage answers and the list has a first item.
    Lists without items exist: [List.objects.create], for no owner or for
    an owner that has a user row, makes one in any database. *)
Theorem name_is_partial :
  (forall l w, select_items (db w) (list_id l) = [] ->
      (exists e, fst (name l w) = Raise e) /\
      (hd false (faults w) = false -> fst (name l w) = Raise AttributeError)) /\
  (forall l w t, fst (name l w) = Return t <->
      hd false (faults w) = false /\
      exists i, first (select_items (db w) (list_id l)) = Some i /\ text i = t) /\
  (forall h o,
      owner_exists (run_history h) o = true ->
      exists l w', List_objects_create o {| db := run_history h; faults := [] |}
                   = (Return l, w') /\
                   In l (lists_list (db w')) /\
                   select_items (db w') (list_id l) = []).
Proof.
  split; [|split].
  - intros l w Hsel. rewrite name_run, Hsel. simpl.
    destruct (hd false (faults w)); simpl; split; eauto; discriminate.
  - intros l w t. rewrite name_run.
    destruct (hd false (faults w)); simpl.
    + split; [discriminate|intros [? _]; discriminate].
    + destruct (first (select_items (db w) (list_id l))) as [i|]; simpl; split.
      * intros H. inversion H. split; [reflexivity|]. now exists i.
      * intros [_ [j [Hj Ht]]]. inversion Hj. congruence.
      * discriminate.
      * intros [_ [j [Hj _]]]. discriminate.
  - intros h o Ho. rewrite List_objects_create_run. simpl. rewrite Ho. simpl.
    eexists. eexists. split; [reflexivity|]. simpl. split.
    + apply in_or_app. right. now left.
    + unfold select_items. simpl.
      rewrite no_items_of_future_list; [reflexivity|apply wf_run_history|lia].
Qed.

Lemma name_is_partial_witness :
  let l := mkList 1 None in
  let w := {| db := run_history [(CallListCreate None, [])]; faults := [] |} in
  (exists e, fst (name l w) = Raise e) /\
  (hd false (faults w) = false -> fst (name l w) = Raise AttributeError).
Proof.
  apply (proj1 name_is_partial (mkList 1 None)
           {| db := run_history [(CallListCreate None, [])]; faults := [] |}).
  reflexivity.
Defined.


(** ** Rows are only ever appended *)

Lemma db_step_appends (d d' : DB) :
  db_step d d' ->
  (exists ls, lists_list d' = lists_list d ++ ls) /\
  (exists more, lists_item d' = lists_item d ++ more).
Proof.
  induction 1 as [d|d o|d t lid Hl Hi|d u|d1 d2 d3 _ IH1 _ IH2]; simpl.
  - split; exists []; now rewrite app_nil_r.
  - split; [eexists; reflexivity|exists []; now rewrite app_nil_r].
  - split; [exists []; now rewrite app_nil_r|eexists; reflexivity].
  - split; exists []; now rewrite app_nil_r.
  - destruct IH1 as [[l1 H1] [i1 H1']], IH2 as [[l2 H2] [i2 H2']].
    split.
    + exists (l1 ++ l2). now rewrite H2, H1, app_assoc.
    + exists (i1 ++ i2). now rewrite H2', H1', app_assoc.
Qed.

Lemma fold_db_step (h : list (call * list bool)) (d : DB) :
  db_step d (fold_left step h d).
Proof.
  revert d. induction h as [|e h IH]; simpl; intros d; [constructor|].
  eapply step_trans; [apply step_db_step|apply IH].
Qed.

Lemma run_history_app (h h' : list (call * list bool)) :
  run_history (h ++ h') = fold_left step h' (run_history h).
Proof. unfold run_history. apply fold_left_app. Qed.

Lemma has_item_future (d : DB) (lid : nat) (t : string) :
  wf d -> list_seq d < lid -> has_item d lid t = false.
Proof.
  intros Hwf Hlt. unfold has_item.
  pose proof (no_items_of_future_list d lid Hwf Hlt) as Hnone.
  induction (lists_item d) as [|x l IH]; simpl in *; [reflexivity|].
  destruct (item_list x =? lid); simpl in *; [discriminate|now apply IH].
Qed.

(** [create_new] on well-formed tables, outcome by outcome: the schedule of
    the storage and the owner's foreign key decide, nothing else can go
    wrong. *)
Lemma create_new_run_wf (t : string) (o : option UserRef) (d : DB) (fs : list bool) :
  wf d ->
  let l := mkList (S (list_seq d)) o in
  let d1 := {| lists_list := lists_list d ++ [l]; lists_item := lists_item d;
               list_seq := S (list_seq d); item_seq := item_seq d;
               accounts_user := accounts_user d |} in
  create_new t o {| db := d; faults := fs |} =
  if hd false fs
  then (Raise OperationalError, {| db := d; faults := tl fs |})
  else if negb (owner_exists d o)
  then (Raise (IntegrityError foreign_key), {| db := d; faults := tl fs |})
  else if hd false (tl fs)
  then (Raise OperationalError, {| db := d1; faults := tl (tl fs) |})
  else (Return l,
        {| db := {| lists_list := lists_list d ++ [l];
                    lists_item := lists_item d ++ [mkItem (S (item_seq d)) t (S (list_seq d))];
                    list_seq := S (list_seq d);
                    item_seq := S (item_seq d);
                    accounts_user := accounts_user d |};
           faults := tl (tl fs) |}).
Proof.
  intros Hwf l d1. unfold create_new, bind.
  rewrite List_objects_create_run. simpl.
  destruct (hd false fs); [reflexivity|].
  destruct (owner_exists d o); simpl; [|reflexivity].
  rewrite Item_objects_create_run. simpl.
  destruct (hd false (tl fs)); [reflexivity|].
  assert (Hex : list_exists d1 (S (list_seq d)) = true).
  { unfold list_exists, d1. simpl. rewrite existsb_app. simpl.
    rewrite Nat.eqb_refl. apply orb_true_r. }
  assert (Hno : has_item d1 (S (list_seq d)) t = false).
  { assert (H := has_item_future d (S (list_seq d)) t Hwf (Nat.lt_succ_diag_r _)).
    exact H. }
  unfold d1, l in Hex, Hno. rewrite Hex, Hno. reflexivity.
Qed.

Lemma select_items_other_list (d d' : DB) (i : ItemRow) (lid : nat) :
  lists_item d' = lists_item d ++ [i] -> item_list i <> lid ->
  select_items d' lid = select_items d lid.
Proof.
  intros H Hne. unfold select_items. rewrite H, filter_app. simpl.
  destruct (Nat.eqb_spec (item_list i) lid); [contradiction|].
  now rewrite app_nil_r.
Qed.

(** ** More on [List.create_new] *)

(** X1.  After any history, [List.create_new] has four outcomes, picked by
    the storage and the owner alone: storage down at the first statement,
    it raises with the database untouched; an owner that has no user row,
    it raises the foreign key error with the database untouched; storage
    down at the second statement, it raises with the new List row written
    and no Item; otherwise it returns the new List with its first Item
    written.  The insert of the first item never fails on a constraint. *)
Theorem create_new_outcomes (h : list (call * list bool)) (fs : list bool)
    (t : string) (o : option UserRef) :
  let d := run_history h in
  let r := create_new t o {| db := d; faults := fs |} in
  let l := mkList (S (list_seq d)) o in
  (if hd false fs
   then fst r = Raise OperationalError /\ db (snd r) = d
   else if negb (owner_exists d o)
   then fst r = Raise (IntegrityError foreign_key) /\ db (snd r) = d
   else if hd false (tl fs)
   then fst r = Raise OperationalError /\
        lists_list (db (snd r)) = lists_list d ++ [l] /\
        lists_item (db (snd r)) = lists_item d
   else fst r = Return l /\
        lists_list (db (snd r)) = lists_list d ++ [l] /\
        lists_item (db (snd r)) =
          lists_item d ++ [mkItem (S (item_seq d)) t (list_id l)]) /\
  (forall e, fst r = Raise e ->
     e = OperationalError \/
     (e = IntegrityError foreign_key /\ owner_exists d o = false)).
Proof.
  intros d r l. subst r.
  rewrite (create_new_run_wf t o d fs (wf_run_history h)).
  destruct (hd false fs); [|destruct (owner_exists d o);
                             [destruct (hd false (tl fs))|]]; simpl;
    repeat split; intros e He; inversion He; auto.
Qed.

Lemma create_new_outcomes_witness :
  let d := run_history [(CallUserCreate "a@b.com", [])] in
  fst (create_new "buy milk" (Some "a@b.com"%string) {| db := d; faults := [] |})
    = Return (mkList 1 (Some "a@b.com"%string)) /\
  fst (create_new "buy milk" (Some "ghost@b.com"%string) {| db := d; faults := [] |})
    = Raise (IntegrityError foreign_key) /\
  db (snd (create_new "buy milk" (Some "ghost@b.com"%string) {| db := d; faults := [] |}))
    = d.
Proof.
  split.
  - exact (proj1 (proj1 (create_new_outcomes [(CallUserCreate "a@b.com", [])] []
                           "buy milk" (Some "a@b.com"%string)))).
  - exact (proj1 (create_new_outcomes [(CallUserCreate "a@b.com", [])] []
                    "buy milk" (Some "ghost@b.com"%string))).
Defined.

(** X2.  After any history, [List.create_new] keeps away from what is
    there: every List row stays, the items of every existing list are
    retrieved exactly as before, and the List it returns has an id no
    existing list has. *)
Theorem create_new_leaves_other_lists (h : list (call * list bool))
    (fs : list bool) (t : string) (o : option UserRef) :
  let d := run_history h in
  let r := create_new t o {| db := d; faults := fs |} in
  (forall l0, In l0 (lists_list d) -> In l0 (lists_list (db (snd r)))) /\
  (forall lid, list_exists d lid = true ->
     select_items (db (snd r)) lid = select_items d lid) /\
  (forall l, fst r = Return l -> list_exists d (list_id l) = false).
Proof.
  intros d r. subst r. pose proof (wf_run_history h) as Hwf. fold d in Hwf.
  rewrite (create_new_run_wf t o d fs Hwf).
  split; [|split].
  - intros l0 Hin.
    destruct (hd false fs); [|destruct (owner_exists d o);
                               [destruct (hd false (tl fs))|]]; simpl;
      try exact Hin; apply in_or_app; now left.
  - intros lid Hex.
    destruct (hd false fs); [|destruct (owner_exists d o);
                               [destruct (hd false (tl fs))|]]; simpl;
      try reflexivity.
    apply select_items_other_list with (i := mkItem (S (item_seq d)) t (S (list_seq d)));
      [reflexivity|].
    simpl. pose proof (list_exists_bound d lid Hwf Hex). lia.
  - intros l Hret.
    destruct (hd false fs); [discriminate|].
    destruct (owner_exists d o); [|discriminate].
    destruct (hd false (tl fs)); [discriminate|].
    simpl in Hret. inversion Hret; subst l. simpl.
    destruct (list_exists d (S (list_seq d))) eqn:E; [|reflexivity].
    pose proof (list_exists_bound d _ Hwf E). lia.
Qed.

Lemma create_new_leaves_other_lists_witness :
  let d := run_history [(CallCreateNew "buy milk" None, [])] in
  let r := create_new "make tea" None {| db := d; faults := [] |} in
  map text (select_items (db (snd r)) 1) = ["buy milk"%string] /\
  select_items (db (snd r)) 1 = select_items d 1 /\
  list_exists d 2 = false.
Proof.
  pose proof (create_new_leaves_other_lists
                [(CallCreateNew "buy milk" None, [])] [] "make tea" None) as H.
  cbv zeta in H. destruct H as (_ & Hsel & Hfresh).
  split; [reflexivity|]. split.
  - apply Hsel. reflexivity.
  - apply (Hfresh (mkList 2 None)). reflexivity.
Defined.


(** ** What later calls keep *)

Lemma select_items_extends (h h' : list (call * list bool)) (lid : nat) :
  exists more,
    select_items (run_history (h ++ h')) lid = select_items (run_history h) lid ++ more.
Proof.
  rewrite !select_items_wf by apply wf_run_history.
  rewrite run_history_app.
  destruct (db_step_appends _ _ (fold_db_step h' (run_history h))) as [_ [more Hm]].
  rewrite Hm, filter_app. eexists. reflexivity.
Qed.

(** X3.  No call of the model removes, rewrites or reorders a row: whatever
    calls follow a history, under whatever faults, every List row is still
    there and the items retrieved for a list are the ones retrieved before,
    in the same order, followed by the new ones. *)
Theorem later_calls_only_append (h h' : list (call * list bool)) :
  (forall l, In l (lists_list (run_history h)) ->
     In l (lists_list (run_history (h ++ h')))) /\
  (forall lid, exists more,
     select_items (run_history (h ++ h')) lid
     = select_items (run_history h) lid ++ more).
Proof.
  split.
  - intros l Hin. rewrite run_history_app.
    destruct (db_step_appends _ _ (fold_db_step h' (run_history h))) as [[ls Hl] _].
    rewrite Hl. apply in_or_app. now left.
  - intros lid. apply select_items_extends.
Qed.

Lemma later_calls_only_append_witness :
  In (mkList 1 None)
     (lists_list (run_history ([(CallCreateNew "first" None, [])] ++
                               [(CallItemCreate "second" (mkList 1 None), []);
                                (CallCreateNew "other" None, [false; true])]))).
Proof.
  apply (proj1 (later_calls_only_append
                  [(CallCreateNew "first" None, [])]
                  [(CallItemCreate "second" (mkList 1 None), []);
                   (CallCreateNew "other" None, [false; true])])
           (mkList 1 None)).
  simpl. left. reflexivity.
Defined.

(** X4.  The name of a list, once it has one, never changes: if [name]
    returns [t] after some history, it returns [t] after any calls that
    follow, whenever the storage answers. *)
Theorem name_never_changes (h h' : list (call * list bool)) (l : ListRow)
    (fs fs' : list bool) (t : string) :
  fst (name l {| db := run_history h; faults := fs |}) = Return t ->
  hd false fs' = false ->
  fst (name l {| db := run_history (h ++ h'); faults := fs' |}) = Return t.
Proof.
  rewrite !name_run. simpl. intros H Hup. rewrite Hup.
  destruct (hd false fs); [discriminate|].
  destruct (select_items_extends h h' (list_id l)) as [more ->].
  destruct (select_items (run_history h) (list_id l)) as [|i q]; simpl in *;
    [discriminate|exact H].
Qed.

Lemma name_never_changes_witness :
  fst (name (mkList 1 None)
         {| db := run_history ([(CallCreateNew "groceries" None, [])] ++
                               [(CallItemCreate "apples" (mkList 1 None), []);
                                (CallCreateNew "chores" None, [])]);
            faults := [] |})
  = Return "groceries"%string.
Proof.
  apply (name_never_changes [(CallCreateNew "groceries" None, [])]
           [(CallItemCreate "apples" (mkList 1 None), []);
            (CallCreateNew "chores" None, [])]
           (mkList 1 None) [] [] "groceries"%string).
  - reflexivity.
  - reflexivity.
Defined.

(** ** More on [Item.objects.create] *)

(** X5.  [Item.objects.create] that raises has written nothing.  After any
    history, on an existing list with the storage up, it raises the
    uniqueness error exactly when the list already shows the text; when the
    text is new it returns the row, which from then on is retrieved last in
    its list, and the items of every other list are retrieved as before. *)
Theorem item_create_iff_text_is_new (h : list (call * list bool)) (fs : list bool)
    (t : string) (l : ListRow) :
  let d := run_history h in
  let r := Item_objects_create t l {| db := d; faults := fs |} in
  (forall e, fst r = Raise e -> db (snd r) = d) /\
  (list_exists d (list_id l) = true -> hd false fs = false ->
   (In t (map text (select_items d (list_id l))) ->
      fst r = Raise (IntegrityError unique_together)) /\
   (~ In t (map text (select_items d (list_id l))) ->
      exists i, fst r = Return i /\ text i = t /\ item_list i = list_id l /\
        select_items (db (snd r)) (list_id l) = select_items d (list_id l) ++ [i] /\
        forall lid, lid <> list_id l ->
          select_items (db (snd r)) lid = select_items d lid)).
Proof.
  intros d r. subst r. rewrite Item_objects_create_run. simpl. split.
  - intros e.
    destruct (hd false fs); simpl; [reflexivity|].
    destruct (list_exists d (list_id l)); simpl; [|reflexivity].
    destruct (has_item d (list_id l) t); simpl; [reflexivity|discriminate].
  - intros Hex Hup. rewrite Hup, Hex. simpl. split.
    + intros Hin. apply has_item_select in Hin. rewrite Hin. reflexivity.
    + intros Hnot.
      destruct (has_item d (list_id l) t) eqn:Hhas;
        [exfalso; apply Hnot; now apply has_item_select|].
      simpl. eexists. split; [reflexivity|]. simpl.
      split; [reflexivity|]. split; [reflexivity|].
      assert (Hwf' : wf {| lists_list := lists_list d;
                           lists_item := lists_item d ++ [mkItem (S (item_seq d)) t (list_id l)];
                           list_seq := list_seq d;
                           item_seq := S (item_seq d);
                           accounts_user := accounts_user d |}).
      { eapply wf_db_step; [|apply (wf_run_history h)]. now apply step_item. }
      split.
      * rewrite (select_items_wf _ _ Hwf'), (select_items_wf d) by apply wf_run_history.
        simpl. rewrite filter_app. simpl. now rewrite Nat.eqb_refl.
      * intros lid Hne.
        apply select_items_other_list with (i := mkItem (S (item_seq d)) t (list_id l));
          [reflexivity|]. simpl. congruence.
Qed.

Lemma item_create_iff_text_is_new_witness :
  let d := run_history [(CallCreateNew "buy milk" None, []);
                        (CallCreateNew "buy milk" None, [])] in
  let l := mkList 1 None in
  fst (Item_objects_create "buy milk" l {| db := d; faults := [] |})
    = Raise (IntegrityError unique_together) /\
  exists i,
    fst (Item_objects_create "make tea" l {| db := d; faults := [] |}) = Return i /\
    text i = "make tea"%string /\ item_list i = 1 /\
    select_items (db (snd (Item_objects_create "make tea" l {| db := d; faults := [] |}))) 1
      = select_items d 1 ++ [i] /\
    forall lid, lid <> 1 ->
      select_items (db (snd (Item_objects_create "make tea" l {| db := d; faults := [] |}))) lid
      = select_items d lid.
Proof.
  split.
  - apply (proj1 (proj2 (item_create_iff_text_is_new
             [(CallCreateNew "buy milk" None, []); (CallCreateNew "buy milk" None, [])]
             [] "buy milk" (mkList 1 None)) eq_refl eq_refl)).
    simpl. left. reflexivity.
  - apply (proj2 (proj2 (item_create_iff_text_is_new
             [(CallCreateNew "buy milk" None, []); (CallCreateNew "buy milk" None, [])]
             [] "make tea" (mkList 1 None)) eq_refl eq_refl)).
    simpl. intros [H|[]]. discriminate H.
Defined.

(** ** More on the item query *)

Lemma insert_by_id_perm (x : ItemRow) (l : list ItemRow) :
  Permutation (insert_by_id x l) (x :: l).
Proof.
  induction l as [|y l IH]; simpl; [reflexivity|].
  destruct (item_id x <=? item_id y); [reflexivity|].
  rewrite IH. apply perm_swap.
Qed.

Lemma order_by_id_perm (l : list ItemRow) : Permutation (order_by_id l) l.
Proof.
  induction l as [|x l IH]; simpl; [constructor|].
  rewrite insert_by_id_perm. now constructor.
Qed.

(** X6.  On any tables whatever, the query behind [item_set] returns the
    rows of that list and no others, each as often as the table holds it:
    the result is a rearrangement of the table's rows of the list, so a row
    is retrieved exactly when it is in the table and refers to the list,
    and a list never shows a row of another list. *)
Theorem item_set_is_the_rows_of_the_list (d : DB) (lid : nat) :
  Permutation (select_items d lid)
              (filter (fun i => item_list i =? lid) (lists_item d)) /\
  (forall i, In i (select_items d lid) <-> In i (lists_item d) /\ item_list i = lid) /\
  (forall lid' i, In i (select_items d lid) -> In i (select_items d lid') -> lid = lid').
Proof.
  assert (Hin : forall l i, In i (select_items d l) <->
                            In i (lists_item d) /\ item_list i = l).
  { intros l i. unfold select_items. rewrite order_by_id_In, filter_In, Nat.eqb_eq.
    reflexivity. }
  split; [apply order_by_id_perm|]. split; [apply Hin|].
  intros lid' i H1 H2. apply Hin in H1, H2. destruct H1, H2. congruence.
Qed.

(** X7.  After any history, every Item row refers to a List row that is in
    the database: no call stores an item for a list that does not exist. *)
Theorem every_item_has_its_list (h : list (call * list bool)) (i : ItemRow) :
  In i (lists_item (run_history h)) ->
  exists l, In l (lists_list (run_history h)) /\ list_id l = item_list i.
Proof.
  intros Hin.
  pose proof (wf_fk _ (wf_run_history h)) as Hfk. rewrite Forall_forall in Hfk.
  specialize (Hfk i Hin). unfold list_exists in Hfk.
  apply existsb_exists in Hfk as [l [Hl Hid]]. apply Nat.eqb_eq in Hid. eauto.
Qed.

Lemma every_item_has_its_list_witness :
  exists l,
    In l (lists_list (run_history [(CallCreateNew "a" None, []);
                                   (CallItemCreate "b" (mkList 7 None), []);
                                   (CallItemCreate "c" (mkList 1 None), [])])) /\
    list_id l = item_list (mkItem 2 "c" 1).
Proof.
  apply (every_item_has_its_list
           [(CallCreateNew "a" None, []);
            (CallItemCreate "b" (mkList 7 None), []);
            (CallItemCreate "c" (mkList 1 None), [])]
           (mkItem 2 "c" 1)).
  simpl. right. left. reflexivity.
Defined.


End ListsProofs.

(** * Properties of the login views *)

Module AccountsProofs.

Import Accounts.

(** ** The passwordless backend *)

Lemma authenticate_absent (s : Storage) : authenticate None s = (Return None, s).
Proof. reflexivity. Qed.

Lemma authenticate_empty (s : Storage) : authenticate (Some "") s = (Return None, s).
Proof. reflexivity. Qed.

(** The backend raises nothing but storage faults. *)
Lemma authenticate_raises_storage_fault (u : option string) (s : Storage) (e : exn) :
  fst (authenticate u s) = Raise e -> e = OperationalError.
Proof.
  unfold authenticate. destruct u as [u|]; [|discriminate].
  destruct (u =? "")%string; [discriminate|].
  cbv [bind find_by_uid find_user User_objects_create storage_access get put ret].
  destruct (hd false (faults s)); simpl; [congruence|].
  destruct (find _ (tokens s)) as [tk|]; simpl; [|discriminate].
  destruct (hd false (tl (faults s))); simpl; [congruence|].
  destruct (find _ (users s)) as [x|]; simpl; [discriminate|].
  destruct (hd false (tl (tl (faults s)))); simpl; [congruence|discriminate].
Qed.

(** With the storage up, a uid no token carries resolves to nobody and
    leaves the tables alone. *)
Lemma authenticate_unknown (u : string) (s : Storage) :
  faults s = [] ->
  find (fun t => (uid t =? u)%string) (tokens s) = None ->
  authenticate (Some u) s = (Return None, s).
Proof.
  intros Hf Hn. unfold authenticate. destruct (u =? "")%string; [reflexivity|].
  cbv [bind find_by_uid storage_access get ret]. rewrite Hf. simpl.
  rewrite Hn. destruct s; simpl in *; subst; reflexivity.
Qed.

(** With the storage up, the uid of a token resolves to a user with the
    token's email. *)
Lemma authenticate_valid (u : string) (s : Storage) (tk : Token) :
  faults s = [] -> u <> ""%string ->
  find (fun t => (uid t =? u)%string) (tokens s) = Some tk ->
  exists s', authenticate (Some u) s = (Return (Some (mkUser (token_email tk))), s').
Proof.
  intros Hf Hne Hfind. unfold authenticate.
  destruct (String.eqb_spec u ""); [contradiction|].
  cbv [bind find_by_uid find_user User_objects_create storage_access get put ret].
  rewrite Hf. simpl. rewrite Hfind. simpl.
  destruct (find _ (users s)) as [x|] eqn:Hx; simpl.
  - apply find_some in Hx as [_ Hx]. apply String.eqb_eq in Hx.
    destruct x as [em]; simpl in Hx; subst em. eauto.
  - eauto.
Qed.

Section WithCollaborators.

Context {framework : Framework} {auth_backend : AuthBackend}.

(** ** [login] *)

Lemma login_run (request : HttpRequest) (w : World) :
  login request w =
  match backend_authenticate request (QueryDict_get "token" (GET request)) (storage w) with
  | (Raise e, s') =>
      (Raise e, {| storage := s'; session := session w;
                   messages := messages w; outbox := outbox w |})
  | (Return None, s') =>
      (Return (redirect "/"), {| storage := s'; session := session w;
                                 messages := messages w; outbox := outbox w |})
  | (Return (Some u), s') =>
      (Return (redirect "/"), {| storage := s'; session := Some (email u);
                                 messages := messages w; outbox := outbox w |})
  end.
Proof.
  unfold login, bind, auth_authenticate, lift, auth_login, ret.
  destruct (backend_authenticate _ _ (storage w)) as [[[u|]|e] s']; reflexivity.
Qed.

(** ** [send_login_email] *)

Lemma send_login_email_no_email (request : HttpRequest) (w : World) :
  QueryDict_get "email" (POST request) = None ->
  send_login_email request w = (Raise MultiValueDictKeyError, w).
Proof.
  intros H. unfold send_login_email, bind, QueryDict_getitem. rewrite H. reflexivity.
Qed.

Lemma recipients_login_message (request : HttpRequest) (token : Token) :
  recipients (login_message request token)
  = if (token_email token =? "")%string then [] else [token_email token].
Proof.
  unfold recipients, login_message. cbn [recipient_list filter].
  destruct (token_email token =? "")%string; reflexivity.
Qed.


Lemma send_login_email_run (request : HttpRequest) (w : World) (e : string) :
  QueryDict_get "email" (POST request) = Some e ->
  send_login_email request w =
  let s := storage w in
  if hd false (faults s)
  then (Raise OperationalError,
        {| storage := {| tokens := tokens s; users := users s; entropy := entropy s;
                         clock := clock s; faults := tl (faults s) |};
           session := session w; messages := messages w; outbox := outbox w |})
  else
    let token := issued_token e s in
    let s1 := {| tokens := (tokens s ++ [token])%list; users := users s;
                 entropy := S (entropy s); clock := S (clock s);
                 faults := tl (faults s) |} in
    match mailer_call (login_message request token) with
    | Some c =>
        (Raise (MailerError c),
         {| storage := s1; session := session w;
            messages := messages w; outbox := outbox w |})
    | None =>
        (Return (redirect "/"),
         {| storage := s1; session := session w;
            messages := (messages w ++ [(SUCCESS, confirmation)])%list;
            outbox := if (e =? "")%string then outbox w
                      else (outbox w ++ [login_message request token])%list |})
    end.
Proof.
  intros H.
  cbv [send_login_email bind QueryDict_getitem lift Token_objects_create
       storage_access get put ret send_mail messages_success].
  rewrite H. cbv beta iota.
  destruct (hd false (faults (storage w))); cbv beta iota zeta; [reflexivity|].
  unfold mailer_call.
  change (recipients _) with
    (recipients (login_message request (issued_token e (storage w)))).
  change (mail_transport _) with
    (mail_transport (login_message request (issued_token e (storage w)))).
  rewrite recipients_login_message. cbn [token_email issued_token].
  destruct (e =? "")%string; [reflexivity|].
  destruct (mail_transport _); reflexivity.
Qed.


(** C8.  Two submissions on which the token is stored and the mailer call
    returns are answered alike -- the same redirect, the same success
    message queued -- whatever the two emails are and whatever users the
    two databases hold; and when the mailer call raises,
    [send_login_email] raises the same error and queues no message. *)
Theorem login_email_confirmation_is_uniform :
  (forall (request1 request2 : HttpRequest) (w1 w2 : World) (e1 e2 : string),
      QueryDict_get "email" (POST request1) = Some e1 ->
      QueryDict_get "email" (POST request2) = Some e2 ->
      hd false (faults (storage w1)) = false ->
      hd false (faults (storage w2)) = false ->
      mailer_call (login_message request1 (issued_token e1 (storage w1))) = None ->
      mailer_call (login_message request2 (issued_token e2 (storage w2))) = None ->
      let r1 := send_login_email request1 w1 in
      let r2 := send_login_email request2 w2 in
      fst r1 = fst r2 /\
      fst r1 = Return (redirect "/") /\
      messages (snd r1) = (messages w1 ++ [(SUCCESS, confirmation)])%list /\
      messages (snd r2) = (messages w2 ++ [(SUCCESS, confirmation)])%list) /\
  (forall (request : HttpRequest) (w : World) (e : string) (c : nat),
      QueryDict_get "email" (POST request) = Some e ->
      hd false (faults (storage w)) = false ->
      mailer_call (login_message request (issued_token e (storage w))) = Some c ->
      let r := send_login_email request w in
      fst r = Raise (MailerError c) /\
      messages (snd r) = messages w /\
      session (snd r) = session w).
Proof.
  split.
  - intros request1 request2 w1 w2 e1 e2 He1 He2 Hup1 Hup2 Hm1 Hm2 r1 r2.
    subst r1 r2.
    rewrite (send_login_email_run request1 w1 e1 He1),
            (send_login_email_run request2 w2 e2 He2).
    cbv zeta. rewrite Hup1, Hup2, Hm1, Hm2. repeat split.
  - intros request w e c He Hup Hm r. subst r.
    rewrite (send_login_email_run request w e He).
    cbv zeta. rewrite Hup, Hm. repeat split.
Qed.

(** X8.  [send_login_email] raises the missing-key error exactly when the
    form carries no [email] field, and then nothing has happened: no token,
    no mail, no message. *)
Theorem send_login_email_requires_email (request : HttpRequest) (w : World) :
  (QueryDict_get "email" (POST request) = None ->
     send_login_email request w = (Raise MultiValueDictKeyError, w)) /\
  (fst (send_login_email request w) = Raise MultiValueDictKeyError ->
     QueryDict_get "email" (POST request) = None).
Proof.
  split; [apply send_login_email_no_email|].
  destruct (QueryDict_get "email" (POST request)) as [e|] eqn:He; [|reflexivity].
  rewrite (send_login_email_run request w e He). cbv zeta.
  destruct (hd false (faults (storage w))); [discriminate|].
  destruct (mailer_call _); discriminate.
Qed.

(** X9.  [send_login_email] never touches the session or the users.
    Either it returns the redirect, having stored one token and queued the
    one success message, with the outbox grown by at most one message; or
    it raises, having handed over no mail and queued no message.  When it
    returns for a non-empty email the outbox has grown by exactly the
    message for that email; for the empty email it returns, confirms, and
    the outbox is as it was. *)
Theorem send_login_email_effects (request : HttpRequest) (w : World) :
  let r := send_login_email request w in
  session (snd r) = session w /\
  users (storage (snd r)) = users (storage w) /\
  ((fst r = Return (redirect "/") /\
    (exists tk, tokens (storage (snd r)) = (tokens (storage w) ++ [tk])%list /\
                Some (token_email tk) = QueryDict_get "email" (POST request) /\
                outbox (snd r) = if (token_email tk =? "")%string then outbox w
                                 else (outbox w ++ [login_message request tk])%list) /\
    messages (snd r) = (messages w ++ [(SUCCESS, confirmation)])%list) \/
   (exists e, fst r = Raise e /\
    outbox (snd r) = outbox w /\
    messages (snd r) = messages w)).
Proof.
  intros r. subst r.
  destruct (QueryDict_get "email" (POST request)) as [e|] eqn:He.
  - rewrite (send_login_email_run request w e He). cbv zeta.
    destruct (hd false (faults (storage w))); simpl.
    + repeat split. right. eauto.
    + destruct (mailer_call _) as [c|]; simpl; repeat split.
      * right. eauto.
      * left. repeat split. eexists. repeat split.
  - rewrite (send_login_email_no_email request w He). simpl.
    repeat split. right. eauto.
Qed.

End WithCollaborators.

(** C6.  Whatever token parameter is presented, [login] adds no error of
    its own: it raises only what the authentication backend raised.  When
    the backend resolves nobody the request is answered with the session
    left as it was; when it resolves a user the session is bound to that
    user.  With the passwordless backend the only error is a storage
    fault, an absent, empty or unknown token changes nothing at all, and a
    token's uid binds the session to the token's email. *)
Theorem login_degrades_to_anonymous :
  (forall (backend : AuthBackend) (request : HttpRequest) (w : World),
      let a := backend_authenticate request (QueryDict_get "token" (GET request))
                 (storage w) in
      let r := login request w in
      (forall e, fst r = Raise e -> fst a = Raise e) /\
      (fst a = Return None ->
         fst r = Return (redirect "/") /\ session (snd r) = session w) /\
      (forall u, fst a = Return (Some u) ->
         fst r = Return (redirect "/") /\ session (snd r) = Some (email u))) /\
  (forall (request : HttpRequest) (w : World) (e : exn),
      fst (login (auth_backend := PasswordlessAuthenticationBackend) request w) = Raise e ->
      e = OperationalError) /\
  (forall (request : HttpRequest) (w : World),
      faults (storage w) = [] ->
      let r := login (auth_backend := PasswordlessAuthenticationBackend) request w in
      match QueryDict_get "token" (GET request) with
      | None => r = (Return (redirect "/"), w)
      | Some u =>
          if (u =? "")%string then r = (Return (redirect "/"), w)
          else match find (fun t => (uid t =? u)%string) (tokens (storage w)) with
               | None => r = (Return (redirect "/"), w)
               | Some tk => fst r = Return (redirect "/") /\
                            session (snd r) = Some (token_email tk)
               end
      end).
Proof.
  split; [|split].
  - intros backend request w a r. subst a r. rewrite login_run.
    destruct (backend_authenticate _ _ (storage w)) as [[[u|]|e] s']; simpl;
      repeat split; intros; try discriminate; try congruence.
  - intros request w e. rewrite login_run. simpl.
    pose proof (authenticate_raises_storage_fault
                  (QueryDict_get "token" (GET request)) (storage w) e) as H.
    destruct (authenticate _ (storage w)) as [[[u|]|e'] s']; simpl in *;
      try discriminate.
    intros E. inversion E; subst. now apply H.
  - intros request w Hf r. subst r. rewrite login_run. simpl.
    destruct (QueryDict_get "token" (GET request)) as [u|].
    + destruct (String.eqb_spec u "") as [->|Hne].
      * rewrite authenticate_empty. destruct w; reflexivity.
      * destruct (find _ (tokens (storage w))) as [tk|] eqn:Hfind.
        -- destruct (authenticate_valid u (storage w) tk Hf Hne Hfind) as [s' ->].
           simpl. split; reflexivity.
        -- rewrite (authenticate_unknown u (storage w) Hf Hfind).
           destruct w; reflexivity.
    + rewrite authenticate_absent. destruct w; reflexivity.
Qed.

Lemma login_degrades_to_anonymous_witness :
  let w := snd (send_login_email (framework := example_framework)
                  (example_request [("email", "a@b.com")] []) empty_world) in
  let r := login (auth_backend := PasswordlessAuthenticationBackend)
             (example_request [] [("token", "5f0c1d2e-a")]) w in
  fst r = Return (redirect "/") /\ session (snd r) = Some "a@b.com".
Proof.
  apply (proj2 (proj2 (proj1 login_degrades_to_anonymous
           PasswordlessAuthenticationBackend
           (example_request [] [("token", "5f0c1d2e-a")])
           (snd (send_login_email (framework := example_framework)
                   (example_request [("email", "a@b.com")] []) empty_world))))
           (mkUser "a@b.com")).
  reflexivity.
Defined.

(** C10.  Any two requests [login] answers get the same response, the
    redirect to the site root, whatever token either of them presented and
    whether or not it resolved to a user; [login] answers whenever the
    backend returns, and it queues no message and sends no mail. *)
Theorem login_response_ignores_token :
  (forall (backend : AuthBackend) (request1 request2 : HttpRequest)
          (w1 w2 w1' w2' : World) (r1 r2 : HttpResponse),
      login request1 w1 = (Return r1, w1') ->
      login request2 w2 = (Return r2, w2') ->
      r1 = r2 /\ r1 = redirect "/") /\
  (forall (backend : AuthBackend) (request : HttpRequest) (w : World),
      (forall x s', backend_authenticate request (QueryDict_get "token" (GET request))
                      (storage w)
                    = (Return x, s') ->
                    fst (login request w) = Return (redirect "/")) /\
      messages (snd (login request w)) = messages w /\
      outbox (snd (login request w)) = outbox w).
Proof.
  split.
  - intros backend request1 request2 w1 w2 w1' w2' r1 r2. rewrite !login_run.
    destruct (backend_authenticate _ _ (storage w1)) as [[[u1|]|e1] s1];
      destruct (backend_authenticate _ _ (storage w2)) as [[[u2|]|e2] s2];
      intros H1 H2; inversion H1; inversion H2; split; reflexivity.
  - intros backend request w. rewrite login_run.
    destruct (backend_authenticate _ _ (storage w)) as [[[u|]|e] s]; simpl;
      repeat split; intros; try reflexivity; discriminate.
Qed.

Lemma login_response_ignores_token_witness :
  let w := snd (send_login_email (framework := example_framework)
                  (example_request [("email", "a@b.com")] []) empty_world) in
  let valid := login (auth_backend := PasswordlessAuthenticationBackend)
                 (example_request [] [("token", "5f0c1d2e-a")]) w in
  let unknown := login (auth_backend := PasswordlessAuthenticationBackend)
                   (example_request [] [("token", "no-such-uid")]) w in
  session (snd valid) = Some "a@b.com" /\
  session (snd unknown) = None /\
  fst valid = Return (redirect "/") /\
  fst unknown = Return (redirect "/") /\
  (redirect "/" = redirect "/" /\ redirect "/" = redirect "/").
Proof.
  split; [reflexivity|]. split; [reflexivity|].
  split; [reflexivity|]. split; [reflexivity|].
  apply (proj1 login_response_ignores_token PasswordlessAuthenticationBackend
           (example_request [] [("token", "5f0c1d2e-a")])
           (example_request [] [("token", "no-such-uid")])
           (snd (send_login_email (framework := example_framework)
                   (example_request [("email", "a@b.com")] []) empty_world))
           (snd (send_login_email (framework := example_framework)
                   (example_request [("email", "a@b.com")] []) empty_world))
           (snd (login (auth_backend := PasswordlessAuthenticationBackend)
                   (example_request [] [("token", "5f0c1d2e-a")])
                   (snd (send_login_email (framework := example_framework)
                           (example_request [("email", "a@b.com")] []) empty_world))))
           (snd (login (auth_backend := PasswordlessAuthenticationBackend)
                   (example_request [] [("token", "no-such-uid")])
                   (snd (send_login_email (framework := example_framework)
                           (example_request [("email", "a@b.com")] []) empty_world))))
           (redirect "/") (redirect "/")).
  - reflexivity.
  - reflexivity.
Defined.

(** ** The views on the example host *)



Lemma login_email_confirmation_is_uniform_witness :
  let known := example_request [("email", "a@b.com")] [] in
  let stranger := example_request [("email", "nobody@nowhere.invalid")] [] in
  let w1 := {| storage := {| tokens := []; users := [mkUser "a@b.com"];
                             entropy := 0; clock := 0; faults := [] |};
               session := None; messages := []; outbox := [] |} in
  let r1 := send_login_email (framework := example_framework) known w1 in
  let r2 := send_login_email (framework := example_framework) stranger empty_world in
  fst r1 = fst r2 /\
  fst r1 = Return (redirect "/") /\
  messages (snd r1) = ([] ++ [(SUCCESS, confirmation)])%list /\
  messages (snd r2) = ([] ++ [(SUCCESS, confirmation)])%list.
Proof.
  apply (proj1 (login_email_confirmation_is_uniform (framework := example_framework))
           (example_request [("email", "a@b.com")] [])
           (example_request [("email", "nobody@nowhere.invalid")] [])
           {| storage := {| tokens := []; users := [mkUser "a@b.com"];
                            entropy := 0; clock := 0; faults := [] |};
              session := None; messages := []; outbox := [] |}
           empty_world "a@b.com" "nobody@nowhere.invalid");
    reflexivity.
Defined.

(** The mailer refusing the message is the caller's problem: the token is
    stored, nothing is confirmed. *)
Example mailer_failure_propagates :
  let r := send_login_email (framework := example_framework)
             (example_request [("email", "bounce@example.com")] []) empty_world in
  fst r = Raise (MailerError 550) /\
  messages (snd r) = [] /\
  tokens (storage (snd r)) = [mkToken "5f0c1d2e-a" "bounce@example.com" 0].
Proof. repeat split. Qed.


Lemma send_login_email_requires_email_witness :
  send_login_email (framework := example_framework)
    (example_request [("mail", "a@b.com")] [("email", "a@b.com")]) empty_world
  = (Raise MultiValueDictKeyError, empty_world).
Proof.
  apply (proj1 (send_login_email_requires_email (framework := example_framework)
                  (example_request [("mail", "a@b.com")] [("email", "a@b.com")])
                  empty_world)).
  reflexivity.
Defined.

End AccountsProofs.
